(** * Retrieval core of MultiAgent_LangGraph: chunker and search engines

    A shallow embedding of

    - [retrieval/chunk/chunks.py]: [SchemaClassChunker] ([CLASS_PATTERN],
      [chunk], [_split_large_block]);
    - [retrieval/bm25_search.py]: [BM25Search] ([build_index], [search]);
    - [retrieval/semantic_search.py]: [SemanticSearch] ([build_index],
      [search]);

    and the properties the specification states of them.

    Conventions.  Text is a list of characters.  The two regular
    expressions of the chunker are written out as matchers at the head of a
    text.  Scores are binary64 floating-point numbers.  The libraries the
    code calls ([numpy.argsort], [rank_bm25.BM25Okapi]) are interfaces with
    the laws the code relies on; the embedding model is a function from
    text to vectors.  A method is a state transformer over the object and
    the trace of external calls, returning a value or an exception.
    [build_index] keeps the caller's list of documents by reference; the
    model stores its value, and so describes the runs in which the caller
    leaves that list unchanged afterwards. *)

From Stdlib Require Import Reals Lra.
From Stdlib Require Import Ascii String.
From Stdlib Require Import List Bool Arith ZArith Lia Floats Permutation Sorted.
Import ListNotations.
Local Open Scope string_scope.
Local Open Scope nat_scope.
Local Open Scope bool_scope.
Local Open Scope list_scope.

(** * Text

    Python [str] values are modelled as lists of characters.  The character
    classes are those of CPython on code points below 128; code points
    128-255 count as neither whitespace nor word characters, so the model is
    exact on ASCII text. *)

Definition str := list ascii.

Definition lit (s : string) : str := list_ascii_of_string s.

Definition in_range (lo hi : nat) (c : ascii) : bool :=
  (lo <=? nat_of_ascii c) && (nat_of_ascii c <=? hi).

(** [\s] of a [str] pattern and the characters [str.strip()] removes:
    TAB, LF, VT, FF, CR, FS, GS, RS, US and SPACE. *)
Definition isspace (c : ascii) : bool := in_range 9 13 c || in_range 28 32 c.

(** [\w] of a [str] pattern: letters, digits and the underscore. *)
Definition isword (c : ascii) : bool :=
  in_range 48 57 c || in_range 65 90 c || in_range 97 122 c || Ascii.eqb c "_".

Definition newline : ascii := "010"%char.

(** [len(s)] *)
Definition len (s : str) : Z := Z.of_nat (length s).

Fixpoint dropwhile (f : ascii -> bool) (s : str) : str :=
  match s with
  | c :: s' => if f c then dropwhile f s' else s
  | [] => []
  end.

Fixpoint takewhile (f : ascii -> bool) (s : str) : str :=
  match s with
  | c :: s' => if f c then c :: takewhile f s' else []
  | [] => []
  end.

(** [s.strip()] *)
Definition lstrip (s : str) : str := dropwhile isspace s.
Definition rstrip (s : str) : str := rev (dropwhile isspace (rev s)).
Definition strip (s : str) : str := rstrip (lstrip s).

(** [sep.join(parts)] *)
Fixpoint join (sep : str) (parts : list str) : str :=
  match parts with
  | [] => []
  | [p] => p
  | p :: ps => p ++ sep ++ join sep ps
  end.

(** * Regular expressions of the chunker, matched at the head of a text *)

(** A literal: the text after it, when the text starts with it. *)
Fixpoint literal (p s : str) : option str :=
  match p, s with
  | [], _ => Some s
  | a :: p', b :: s' => if Ascii.eqb a b then literal p' s' else None
  | _ :: _, [] => None
  end.

(** [c+] for a character class [c]: the text after the longest run, which
    must hold one character at least.  The classes that follow one another
    in the patterns below are disjoint from what comes next, so backtracking
    into a shorter run never helps and the longest run is the only one to
    try. *)
Definition plus (f : ascii -> bool) (s : str) : option str :=
  match s with
  | c :: s' => if f c then Some (dropwhile f s') else None
  | [] => None
  end.

Definition and_then {A B : Type} (o : option A) (k : A -> option B) : option B :=
  match o with Some a => k a | None => None end.

(** [class\s+\w+\(Base\):] at the head of [s]: the text after the match. *)
Definition class_header (s : str) : option str :=
  and_then (literal (lit "class") s) (fun s1 =>
  and_then (plus isspace s1) (fun s2 =>
  and_then (plus isword s2) (fun s3 =>
  literal (lit "(Base):") s3))).

(** The lookahead [(?=\nclass\s+\w+\(Base\):|\Z)]. *)
Definition lookahead (s : str) : bool :=
  match s with
  | [] => true
  | c :: s' => Ascii.eqb c newline &&
               match class_header s' with Some _ => true | None => false end
  end.

(** [[\s\S]*?] followed by the lookahead: the shortest text up to a position
    where the lookahead holds, and the text from that position on. *)
Fixpoint lazy_body (s : str) : str * str :=
  if lookahead s then ([], s)
  else match s with
       | c :: s' => let (b, r) := lazy_body s' in (c :: b, r)
       | [] => ([], [])
       end.

(** [CLASS_PATTERN] at the head of [s]: group 1 and the text after the
    match. *)
Definition CLASS_PATTERN (s : str) : option (str * str) :=
  match class_header s with
  | Some after_header =>
      let (body, rest) := lazy_body after_header in
      Some (firstn (length s - length after_header) s ++ body, rest)
  | None => None
  end.

(** [CLASS_PATTERN.findall(text)]: matches are looked for from left to
    right, each search starting where the previous match ended; a position
    with no match is skipped.  [fuel] bounds the number of positions
    tried. *)
Fixpoint findall_from (fuel : nat) (s : str) : list str :=
  match fuel with
  | 0 => []
  | S fuel' =>
      match CLASS_PATTERN s with
      | Some (m, rest) => m :: findall_from fuel' rest
      | None => match s with
                | [] => []
                | _ :: s' => findall_from fuel' s'
                end
      end
  end.

Definition findall (text : str) : list str := findall_from (S (length text)) text.

(** [\n\s{4}(?=#|\w)] at the head of [s]: the text after the five matched
    characters. *)
Definition member_boundary (s : str) : option str :=
  match s with
  | n :: a :: b :: c :: d :: (x :: _) as rest =>
      if Ascii.eqb n newline && isspace a && isspace b && isspace c && isspace d
         && (Ascii.eqb x "#" || isword x)
      then Some rest else None
  | _ => None
  end.

Definition cons_head (c : ascii) (parts : list str) : list str :=
  match parts with
  | p :: ps => (c :: p) :: ps
  | [] => [[c]]
  end.

(** [re.split(r"\n\s{4}(?=#|\w)", block)] *)
Fixpoint re_split_from (fuel : nat) (s : str) : list str :=
  match fuel with
  | 0 => [s]
  | S fuel' =>
      match member_boundary s with
      | Some rest => [] :: re_split_from fuel' rest
      | None => match s with
                | [] => [[]]
                | c :: s' => cons_head c (re_split_from fuel' s')
                end
      end
  end.

Definition re_split (block : str) : list str := re_split_from (S (length block)) block.

Module SchemaClassChunker.

(** [sum(len(x) for x in running)] *)
Definition total_len (running : list str) : Z :=
  fold_right (fun x acc => len x + acc)%Z 0%Z running.

(** One turn of the loop of [_split_large_block] over the state
    [(sub_chunks, running)]. *)
Definition pack (max_chunk_size : Z) (header : str)
  (st : list str * list str) (part : str) : list str * list str :=
  let (sub_chunks, running) := st in
  if (total_len running + len part >? max_chunk_size)%Z
  then (sub_chunks ++ [join [newline] running], [header; part])
  else (sub_chunks, running ++ [part]).

Definition _split_large_block (max_chunk_size : Z) (block : str) : list str :=
  let parts := re_split block in
  let header := hd [] parts in
  let remainder := tl parts in
  let (sub_chunks, running) :=
    fold_left (pack max_chunk_size header) remainder ([], [header]) in
  match running with
  | [] => sub_chunks
  | _ :: _ => sub_chunks ++ [join [newline] running]
  end.

(** Truth value of [self.max_chunk_size], an [Optional[int]]. *)
Definition truthy (max_chunk_size : option Z) : bool :=
  match max_chunk_size with
  | Some m => negb (m =? 0)%Z
  | None => false
  end.

Definition chunk_block (max_chunk_size : option Z) (block : str) : list str :=
  let clean_block := strip block in
  match max_chunk_size with
  | Some m =>
      if truthy max_chunk_size && (len clean_block >? m)%Z
      then _split_large_block m clean_block
      else [clean_block]
  | None => [clean_block]
  end.

Definition chunk (max_chunk_size : option Z) (text : str) : list str :=
  flat_map (chunk_block max_chunk_size) (findall text).

End SchemaClassChunker.

(** ** Greedy packing, stated on the groups of parts behind the sub-chunks

    [gs] lists, for each sub-chunk, the parts joined into it.  The size
    the packing goes by is read off the sub-chunk itself: its length
    without the line breaks that join its parts.  Every group starts with
    the header; the members appear once each, in order; a group was
    closed only when that size and the next member together exceeded the
    limit; the member that did not fit opens the next group after the
    header, whatever its length; and every other member of a group did
    fit when it was added. *)
Definition size_without_breaks (g : list str) : Z :=
  (len (join [newline] g) - (Z.of_nat (length g) - 1))%Z.

Definition Greedy (max_chunk_size : Z) (header : str) (members : list str)
  (gs : list (list str)) : Prop :=
  Forall (fun g => hd_error g = Some header) gs /\
  concat (map (@tl str) gs) = members /\
  (forall l1 g p ms l2,
      gs = l1 ++ g :: (header :: p :: ms) :: l2 ->
      (size_without_breaks g + len p > max_chunk_size)%Z) /\
  Forall (fun g => tl g <> []) (tl gs) /\
  (forall l1 ms1 p ms2 l2,
      gs = l1 ++ (header :: ms1 ++ p :: ms2) :: l2 ->
      l1 = [] \/ ms1 <> [] ->
      (size_without_breaks (header :: ms1) + len p <= max_chunk_size)%Z).

(** The groups the loop of [_split_large_block] forms from the state
    [running] on, used to state what the loop computes. *)
Fixpoint groups (max_chunk_size : Z) (header : str) (running : list str)
  (members : list str) : list (list str) :=
  match members with
  | [] => [running]
  | part :: rest =>
      if (SchemaClassChunker.total_len running + len part >? max_chunk_size)%Z
      then running :: groups max_chunk_size header [header; part] rest
      else groups max_chunk_size header (running ++ [part]) rest
  end.

(** No header match starts inside [pre] when [pre] is followed by [t]. *)
Fixpoint headerless (pre t : str) : bool :=
  match pre with
  | [] => true
  | _ :: v =>
      match class_header (pre ++ t) with
      | Some _ => false
      | None => headerless v t
      end
  end.

(** No span of [text] is split: there is no size limit, or every trimmed
    span is within it. *)
Definition unsplit (max_chunk_size : option Z) (text : str) : bool :=
  match max_chunk_size with
  | None => true
  | Some m =>
      (m =? 0)%Z ||
      forallb (fun span => (len (strip span) <=? m)%Z) (findall text)
  end.

(** A text given line by line. *)
Definition lines (ls : list string) : str := join [newline] (map lit ls).

(** The texts [class\s+\w+\(Base\):] matches. *)
Definition Header (h : str) : Prop :=
  exists ws wd,
    h = lit "class" ++ ws ++ wd ++ lit "(Base):" /\
    ws <> [] /\ forallb isspace ws = true /\
    wd <> [] /\ forallb isword wd = true.

(** * Errors, external calls and the state monad of the search classes *)

Inductive exn : Type :=
| ValueError (msg : string)
| IndexError
| AttributeError
| LibraryError (msg : string).

Definition res (A : Type) : Type := (exn + A)%type.

(** What a search object asks of the libraries injected into it, and the
    line [build_index] prints (recorded by the count it reports). *)
Inductive event : Type :=
| Call_BM25Okapi (corpus : list (list str))
| Call_get_scores (query : list str)
| Call_embed_query (text : str)
| Printed (n : nat).

(** A method runs on the object [self] and the trace of external calls made
    so far; an exception leaves both as they were when it was raised. *)
Record world (O : Type) : Type := World { self : O; trace : list event }.
Arguments World {O} _ _.
Arguments self {O} _.
Arguments trace {O} _.

Definition M (O A : Type) : Type := world O -> res A * world O.

Definition ret {O A} (a : A) : M O A := fun w => (inr a, w).
Definition bind {O A B} (c : M O A) (k : A -> M O B) : M O B :=
  fun w => match c w with
           | (inr a, w') => k a w'
           | (inl e, w') => (inl e, w')
           end.
Definition raise {O A} (e : exn) : M O A := fun w => (inl e, w).
Definition lift {O A} (r : res A) : M O A := fun w => (r, w).
Definition read {O} : M O O := fun w => (inr (self w), w).
Definition write {O} (o : O) : M O unit := fun w => (inr tt, World o (trace w)).
Definition emit {O} (e : event) : M O unit :=
  fun w => (inr tt, World (self w) (trace w ++ [e])).

Declare Scope monad_scope.
Delimit Scope monad_scope with monad.
Notation "x <- c ;; k" := (bind c (fun x => k))
  (at level 61, c at next level, right associativity) : monad_scope.
Notation "c ;; k" := (bind c (fun _ => k))
  (at level 61, right associativity) : monad_scope.

(** [seq[i]] for a non-negative index. *)
Definition getitem {A} (l : list A) (i : nat) : res A :=
  match nth_error l i with
  | Some a => inr a
  | None => inl IndexError
  end.

(** [a[-k:]] for a Python [int] [k]: the start [-k] counts from the end
    when negative, and is clipped to the length. *)
Definition slice_last {A} (k : Z) (a : list A) : list A :=
  let n := Z.of_nat (length a) in
  let start := if (- k <? 0)%Z then Z.max (n - k) 0 else Z.min (- k) n in
  skipn (Z.to_nat start) a.

(** [s.lower()] and [s.split()] on ASCII text. *)
Definition lower (s : str) : str :=
  map (fun c => if in_range 65 90 c then ascii_of_nat (nat_of_ascii c + 32) else c) s.

Fixpoint split_from (cur : str) (s : str) : list str :=
  match s with
  | [] => match cur with [] => [] | _ :: _ => [cur] end
  | c :: s' =>
      if isspace c
      then match cur with
           | [] => split_from [] s'
           | _ :: _ => cur :: split_from [] s'
           end
      else split_from (cur ++ [c]) s'
  end.

Definition split (s : str) : list str := split_from [] s.

(** [[doc.lower().split() for doc in documents]] *)
Definition tokenize (docs : list str) : list (list str) :=
  map (fun doc => split (lower doc)) docs.

(** * Floating point and numpy *)

(** The order numpy sorts floats by: NaN comes after every number. *)
Definition np_le (a b : float) : bool := is_nan b || (a <=? b)%float.

(** [numpy.argsort] with the default [kind]: a permutation of the indices
    that lists the values in ascending order.  The default sort is not
    stable, so the order among equal values is left open. *)
Class Numpy : Type := {
  argsort : list float -> list nat;
  argsort_perm : forall a, Permutation (argsort a) (seq 0 (length a));
  argsort_sorted : forall a,
      StronglySorted (fun i j => np_le (nth i a nan) (nth j a nan) = true)
                     (argsort a)
}.

(** [np.argsort(scores)[-k:][::-1]] *)
Definition top_indices {np : Numpy} (scores : list float) (k : Z) : list nat :=
  rev (slice_last k (argsort scores)).

(** Finite numbers of one sign compare by exponent, then by mantissa. *)
Definition cmp_finite (e : Z) (m : positive) (e' : Z) (m' : positive) : comparison :=
  match (e ?= e')%Z with Lt => Lt | Gt => Gt | Eq => Pos.compare_cont Eq m m' end.

(** [rank_bm25.BM25Okapi]: the constructor may raise; [get_scores] returns
    one score per document of the corpus. *)
Class RankBM25 : Type := {
  BM25Okapi_t : Type;
  BM25Okapi : list (list str) -> res BM25Okapi_t;
  get_scores : BM25Okapi_t -> list str -> list float;
  get_scores_length : forall corpus b query,
      BM25Okapi corpus = inr b ->
      length (get_scores b query) = length corpus
}.

(** [np.dot] of two vectors, summed from left to right (a BLAS may sum in
    another order, which changes the rounding only), and [np.linalg.norm]. *)
Definition np_dot (a b : list float) : res float :=
  if length a =? length b
  then inr (fold_left (fun acc xy => acc + fst xy * snd xy)%float
                      (combine a b) 0%float)
  else inl (ValueError "shapes not aligned").

Definition dot_self (a : list float) : float :=
  fold_left (fun acc x => acc + x * x)%float a 0%float.

Definition np_linalg_norm (a : list float) : float := PrimFloat.sqrt (dot_self a).

(** [np.array] of a list of rows: rows of different lengths are refused
    (numpy 1.24 and later). *)
Definition np_array (rows : list (list float)) : res (list (list float)) :=
  match rows with
  | [] => inr []
  | r :: rs =>
      if forallb (fun r' => length r' =? length r) rs
      then inr rows
      else inl (ValueError "inhomogeneous shape")
  end.

(** A result of [search]: the dict with keys [content], [score], [index]. *)
Record SearchResult : Type := Result {
  content : str;
  score : float;
  index : nat
}.

Definition not_built : exn := ValueError "Index not built. Call build_index() first.".

Module BM25Search.
Section WithLibraries.
Context {np : Numpy} {lib : RankBM25}.

Record t : Type := Obj {
  documents : list str;
  bm25 : option BM25Okapi_t;
  tokenized_docs : list (list str)
}.

(** [__init__] *)
Definition init : t := Obj [] None [].

Local Open Scope monad_scope.

Definition build_index (docs : list str) : M t unit :=
  o <- read ;;
  write (Obj docs (bm25 o) (tokenized_docs o)) ;;
  let tokenized := map (fun doc => split (lower doc)) docs in
  o <- read ;;
  write (Obj (documents o) (bm25 o) tokenized) ;;
  emit (Call_BM25Okapi tokenized) ;;
  b <- lift (BM25Okapi tokenized) ;;
  o <- read ;;
  write (Obj (documents o) (Some b) (tokenized_docs o)) ;;
  emit (Printed (length docs)).

(** The list comprehension that builds the results. *)
Fixpoint results (docs : list str) (scores : list float)
  (top_indices : list nat) : res (list SearchResult) :=
  match top_indices with
  | [] => inr []
  | idx :: rest =>
      match getitem scores idx with
      | inl e => inl e
      | inr s =>
          if (0 <? s)%float
          then match getitem docs idx with
               | inl e => inl e
               | inr d =>
                   match results docs scores rest with
                   | inl e => inl e
                   | inr rs => inr (Result d s idx :: rs)
                   end
               end
          else results docs scores rest
      end
  end.

Definition search (query : str) (k : Z) : M t (list SearchResult) :=
  o <- read ;;
  match bm25 o with
  | None => raise not_built
  | Some b =>
      let tokenized_query := split (lower query) in
      emit (Call_get_scores tokenized_query) ;;
      let scores := get_scores b tokenized_query in
      let top_indices := rev (slice_last k (argsort scores)) in
      lift (results (documents o) scores top_indices)
  end.

End WithLibraries.
End BM25Search.

Module SemanticSearch.
Section WithLibraries.
Context {np : Numpy}.

Record t : Type := Obj {
  documents : list str;
  embeddings : list (list float);
  embedding_model : option (str -> list float)
}.

(** [__init__] *)
Definition init (embedding_model : option (str -> list float)) : t :=
  Obj [] [] embedding_model.

Local Open Scope monad_scope.

(** [self.embedding_model.embed_query(text)] *)
Definition embed_query (text : str) : M t (list float) :=
  o <- read ;;
  match embedding_model o with
  | None => raise AttributeError
  | Some embed => emit (Call_embed_query text) ;; ret (embed text)
  end.

(** The loop of [build_index] that embeds the documents one by one. *)
Fixpoint embed_all (docs : list str) : M t unit :=
  match docs with
  | [] => ret tt
  | doc :: rest =>
      embedding <- embed_query doc ;;
      o <- read ;;
      write (Obj (documents o) (embeddings o ++ [embedding]) (embedding_model o)) ;;
      embed_all rest
  end.

Definition build_index (docs : list str) : M t unit :=
  o <- read ;;
  match embedding_model o with
  | None => raise (ValueError "Embedding model not provided in __init__")
  | Some _ =>
      write (Obj docs (embeddings o) (embedding_model o)) ;;
      o <- read ;;
      write (Obj (documents o) [] (embedding_model o)) ;;
      embed_all docs ;;
      o <- read ;;
      rows <- lift (np_array (embeddings o)) ;;
      write (Obj (documents o) rows (embedding_model o)) ;;
      emit (Printed (length docs))
  end.

(** The constant [1e-9]: the double closest to it. *)
Definition epsilon : float := 0x1.12e0be826d695p-30%float.

(** Cosine similarity as [search] computes it. *)
Definition similarity (query_embedding doc_embedding : list float) : res float :=
  match np_dot query_embedding doc_embedding with
  | inl e => inl e
  | inr d =>
      inr (d / (np_linalg_norm query_embedding * np_linalg_norm doc_embedding
                + epsilon))%float
  end.

Fixpoint similarities (query_embedding : list float)
  (rows : list (list float)) : res (list float) :=
  match rows with
  | [] => inr []
  | doc_embedding :: rest =>
      match similarity query_embedding doc_embedding with
      | inl e => inl e
      | inr s =>
          match similarities query_embedding rest with
          | inl e => inl e
          | inr ss => inr (s :: ss)
          end
      end
  end.

Fixpoint results (docs : list str) (sims : list float)
  (top_indices : list nat) : res (list SearchResult) :=
  match top_indices with
  | [] => inr []
  | idx :: rest =>
      match getitem docs idx with
      | inl e => inl e
      | inr d =>
          match getitem sims idx with
          | inl e => inl e
          | inr s =>
              match results docs sims rest with
              | inl e => inl e
              | inr rs => inr (Result d s idx :: rs)
              end
          end
      end
  end.

Definition search (query : str) (k : Z) : M t (list SearchResult) :=
  o <- read ;;
  if length (embeddings o) =? 0 then raise not_built
  else
    query_embedding <- embed_query query ;;
    sims <- lift (similarities query_embedding (embeddings o)) ;;
    let top_indices := rev (slice_last k (argsort sims)) in
    lift (results (documents o) sims top_indices).

End WithLibraries.
End SemanticSearch.

(** * Libraries to run the code with

    A stable insertion sort for [argsort]; two scorers with the interface of
    [BM25Okapi], which count the query tokens a document holds and differ
    on the empty corpus; and two embedding functions.  They serve to run
    the definitions on concrete inputs; the theorems hold for every
    instance of the classes. *)

Fixpoint insert_index (a : list float) (i : nat) (l : list nat) : list nat :=
  match l with
  | [] => [i]
  | j :: l' =>
      if np_le (nth i a nan) (nth j a nan) then i :: l
      else j :: insert_index a i l'
  end.

Definition stable_argsort (a : list float) : list nat :=
  fold_right (insert_index a) [] (seq 0 (length a)).

Definition str_eqb (a b : str) : bool :=
  if list_eq_dec ascii_dec a b then true else false.

Definition overlap (doc query : list str) : float :=
  fold_left (fun acc tok => if existsb (str_eqb tok) doc then acc + 1 else acc)%float
            query 0%float.

Definition overlap_scores (corpus : list (list str)) (query : list str) : list float :=
  map (fun doc => overlap doc query) corpus.

(** Embeds a text by its first character: [+] and [-] along the first
    axis, [0] as the zero vector, anything else along the second axis. *)
Definition axis_embed (text : str) : list float :=
  match text with
  | "+"%char :: _ => [1; 0]%float
  | "-"%char :: _ => [-1; 0]%float
  | "0"%char :: _ => [0; 0]%float
  | _ => [0; 1]%float
  end.

(** Embeds every text as the one-dimensional vector [1e200] (the double
    closest to it). *)
Definition huge_embed (text : str) : list float := [0x1.4e718d7d7625ap+664%float].

(** Corpora for the examples. *)
Definition docs3 : list str := [lit "a b"; lit "c d"; lit "e f"].
Definition docs_axes : list str := [lit "+x"; lit "-y"; lit "z"].
Definition docs_opposed : list str := [lit "+x"; lit "-y"; lit "+z"].

(** * Cosine similarity over the real numbers

    The expression of [SemanticSearch.similarity] read in exact arithmetic:
    no rounding, no overflow, no NaN. *)

Module Exact.

Definition dot (a b : list R) : R :=
  fold_left (fun acc xy => acc + fst xy * snd xy)%R (combine a b) 0%R.

Definition norm (a : list R) : R := R_sqrt.sqrt (dot a a).

Definition epsilon : R := (/ 1000000000)%R.

Definition similarity (query_embedding doc_embedding : list R) : R :=
  (dot query_embedding doc_embedding
   / (norm query_embedding * norm doc_embedding + epsilon))%R.

End Exact.

(** * The callers: documents from a schema file, and search over them *)

(** A text put back together from the pieces dropped ([gaps]) and the
    pieces kept ([kept]), taken in turn, a gap first. *)
Fixpoint weave (gaps kept : list str) : str :=
  match gaps, kept with
  | g :: gs, c :: cs => g ++ c ++ weave gs cs
  | g :: _, [] => g
  | [], _ => []
  end.

(** [class\s+(\w+)\(Base\):] at the head of [s]: group 1. *)
Definition class_name_at (s : str) : option str :=
  and_then (literal (lit "class") s) (fun s1 =>
  and_then (plus isspace s1) (fun s2 =>
  and_then (plus isword s2) (fun s3 =>
  match literal (lit "(Base):") s3 with
  | Some _ => Some (takewhile isword s2)
  | None => None
  end))).

(** [re.search(r"class\s+(\w+)\(Base\):", chunk)]: group 1 of the leftmost
    match. *)
Fixpoint re_search_class_name (chunk : str) : option str :=
  match class_name_at chunk with
  | Some name => Some name
  | None => match chunk with
            | [] => None
            | _ :: rest => re_search_class_name rest
            end
  end.

Definition extract_table_name (chunk : str) : str :=
  match re_search_class_name chunk with
  | Some name => name
  | None => lit "Unknown"
  end.

(** A LangChain [Document]: its text and its metadata, a dict from keys to
    values, kept in insertion order. *)
Record Document : Type := Doc {
  page_content : str;
  metadata : list (str * str)
}.

(** [get_documents_from_file] once the file is read: [code_text] is what
    [f.read()] returned; [chunker] is [None] or a chunker, given by its
    [max_chunk_size]. *)
Definition get_documents_from_file (file_path : str)
  (chunker : option (option Z)) (code_text : str) : list Document :=
  let chunker := match chunker with
                 | None => None
                 | Some max_chunk_size => max_chunk_size
                 end in
  let chunks := SchemaClassChunker.chunk chunker code_text in
  map (fun chunk =>
         Doc chunk [(lit "table_name", extract_table_name chunk);
                    (lit "source", file_path)])
      chunks.

(** A result of the search over documents: the dict with keys [content],
    [score], [index] and [metadata]. *)
Record DocumentResult : Type := DocResult {
  doc_content : str;
  doc_score : float;
  doc_index : nat;
  doc_metadata : list (str * str)
}.

(** [retrieval/search/bm25_search.py]: [BM25Search] over [Document]s. *)
Module DocumentBM25Search.
Section WithLibraries.
Context {np : Numpy} {lib : RankBM25}.

Record t : Type := Obj {
  documents : list Document;
  bm25 : option BM25Okapi_t;
  tokenized_docs : list (list str)
}.

Definition init : t := Obj [] None [].

Local Open Scope monad_scope.

Definition build_index (docs : list Document) : M t unit :=
  o <- read ;;
  write (Obj docs (bm25 o) (tokenized_docs o)) ;;
  let tokenized := map (fun doc => split (lower (page_content doc))) docs in
  o <- read ;;
  write (Obj (documents o) (bm25 o) tokenized) ;;
  emit (Call_BM25Okapi tokenized) ;;
  b <- lift (BM25Okapi tokenized) ;;
  o <- read ;;
  write (Obj (documents o) (Some b) (tokenized_docs o)) ;;
  emit (Printed (length docs)).

(** The loop that appends to [results]; a [Document] has both attributes,
    so the [hasattr] tests hold. *)
Fixpoint results (docs : list Document) (scores : list float)
  (top_indices : list nat) : res (list DocumentResult) :=
  match top_indices with
  | [] => inr []
  | idx :: rest =>
      match getitem scores idx with
      | inl e => inl e
      | inr s =>
          if (0 <? s)%float
          then match getitem docs idx with
               | inl e => inl e
               | inr doc =>
                   match results docs scores rest with
                   | inl e => inl e
                   | inr rs =>
                       inr (DocResult (page_content doc) s idx (metadata doc) :: rs)
                   end
               end
          else results docs scores rest
      end
  end.

Definition search (query : str) (k : Z) : M t (list DocumentResult) :=
  o <- read ;;
  match bm25 o with
  | None => raise not_built
  | Some b =>
      let tokenized_query := split (lower query) in
      emit (Call_get_scores tokenized_query) ;;
      let scores := get_scores b tokenized_query in
      let top_indices := rev (slice_last k (argsort scores)) in
      lift (results (documents o) scores top_indices)
  end.

End WithLibraries.
End DocumentBM25Search.

(** * Proofs *)
Import SchemaClassChunker.

(** * Facts on the text operations *)

Lemma literal_spec p s r : literal p s = Some r <-> s = p ++ r.
Proof.
  revert s; induction p as [|a p IH]; intros s; simpl.
  - split; [intros [= ->]; reflexivity | intros ->; reflexivity].
  - destruct s as [|b s]; [split; discriminate|].
    destruct (Ascii.eqb_spec a b) as [->|Hne].
    + rewrite IH. split; [intros ->; reflexivity | intros [= ->]; reflexivity].
    + split; [discriminate | intros [= <- _]; congruence].
Qed.

Lemma takewhile_dropwhile f s : takewhile f s ++ dropwhile f s = s.
Proof.
  induction s as [|c s IH]; simpl; [reflexivity|].
  destruct (f c); simpl; [now rewrite IH | reflexivity].
Qed.

Lemma takewhile_all f s : forallb f (takewhile f s) = true.
Proof.
  induction s as [|c s IH]; simpl; [reflexivity|].
  destruct (f c) eqn:E; simpl; [now rewrite E | reflexivity].
Qed.

(** A run stops at the first character outside the class, whatever
    follows it. *)
Lemma dropwhile_app f a c t :
  f c = false -> forallb f a = true -> dropwhile f (a ++ c :: t) = c :: t.
Proof.
  intros Hc; induction a as [|d a IH]; simpl.
  - now rewrite Hc.
  - intros H; apply andb_prop in H as [-> H]. now apply IH.
Qed.

Lemma dropwhile_nonempty_app f a t :
  dropwhile f a <> [] -> dropwhile f (a ++ t) = dropwhile f a ++ t.
Proof.
  induction a as [|d a IH]; simpl; [congruence|].
  destruct (f d); [exact IH | reflexivity].
Qed.

Lemma dropwhile_idem f s : dropwhile f (dropwhile f s) = dropwhile f s.
Proof.
  induction s as [|c s IH]; simpl; [reflexivity|].
  destruct (f c) eqn:E; [exact IH | simpl; now rewrite E].
Qed.

Lemma isword_not_space c : isword c = true -> isspace c = false.
Proof.
  destruct c as [[] [] [] [] [] [] [] []]; vm_compute; congruence.
Qed.

(** * The entity header *)

Lemma plus_spec f s r :
  plus f s = Some r ->
  exists run, s = run ++ r /\ run <> [] /\ forallb f run = true /\
              r = dropwhile f r.
Proof.
  destruct s as [|c s]; simpl; [discriminate|].
  destruct (f c) eqn:E; [|discriminate]. intros [= <-].
  exists (c :: takewhile f s). simpl. rewrite takewhile_dropwhile, E, takewhile_all.
  repeat split; [discriminate | now rewrite dropwhile_idem].
Qed.

Lemma plus_app f run c t :
  run <> [] -> forallb f run = true -> f c = false ->
  plus f (run ++ c :: t) = Some (c :: t).
Proof.
  destruct run as [|d run]; [congruence|]. simpl. intros _ H Hc.
  apply andb_prop in H as [-> H]. now rewrite dropwhile_app.
Qed.

Lemma class_header_spec s r :
  class_header s = Some r -> exists h, Header h /\ s = h ++ r.
Proof.
  unfold class_header, and_then.
  destruct (literal (lit "class") s) as [s1|] eqn:E1; [|discriminate].
  destruct (plus isspace s1) as [s2|] eqn:E2; [|discriminate].
  destruct (plus isword s2) as [s3|] eqn:E3; [|discriminate].
  intros E4.
  apply literal_spec in E1, E4.
  apply plus_spec in E2 as (ws & -> & Hws & Aws & _).
  apply plus_spec in E3 as (wd & -> & Hwd & Awd & _).
  subst. exists (lit "class" ++ ws ++ wd ++ lit "(Base):"). split.
  - now exists ws, wd.
  - now rewrite <- !app_assoc.
Qed.

Lemma Header_match h x : Header h -> class_header (h ++ x) = Some x.
Proof.
  intros (ws & wd & -> & Hws & Aws & Hwd & Awd).
  unfold class_header, and_then.
  rewrite <- !app_assoc.
  assert (E1 : forall t, literal (lit "class") (lit "class" ++ t) = Some t)
    by (intros t; now apply literal_spec).
  rewrite E1.
  destruct wd as [|c wd]; [congruence|].
  simpl in Awd. apply andb_prop in Awd as [Hc Awd].
  rewrite <- app_comm_cons.
  rewrite (plus_app isspace ws c) by (auto using isword_not_space).
  change (c :: wd ++ lit "(Base):" ++ x)
    with ((c :: wd) ++ "("%char :: lit "Base):" ++ x).
  rewrite (plus_app isword (c :: wd) "("%char);
    [| discriminate | simpl; now rewrite Hc | reflexivity].
  now apply literal_spec.
Qed.

Lemma Header_shape h :
  Header h -> exists sp t, h = lit "class" ++ sp :: t /\ isspace sp = true.
Proof.
  intros (ws & wd & -> & Hws & Aws & _).
  destruct ws as [|sp ws]; [congruence|].
  simpl in Aws. apply andb_prop in Aws as [Hsp _].
  exists sp, (ws ++ wd ++ lit "(Base):"). split; [reflexivity | exact Hsp].
Qed.

Lemma Header_ends h :
  Header h -> exists t, h = "c"%char :: t /\ exists t', h = t' ++ [":"%char].
Proof.
  intros (ws & wd & -> & _). split with (lit "lass" ++ ws ++ wd ++ lit "(Base):").
  split; [reflexivity|].
  exists (lit "class" ++ ws ++ wd ++ lit "(Base)").
  now rewrite <- !app_assoc.
Qed.

(** A header match never depends on the text after it. *)
Lemma class_header_app s r t :
  class_header s = Some r -> class_header (s ++ t) = Some (r ++ t).
Proof.
  intros H. apply class_header_spec in H as (h & Hh & ->).
  rewrite <- app_assoc. now apply Header_match.
Qed.

Lemma dropwhile_stop f a c t :
  f c = false -> dropwhile f (a ++ c :: t) = dropwhile f a ++ c :: t.
Proof.
  intros Hc; induction a as [|d a IH]; simpl.
  - now rewrite Hc.
  - destruct (f d); [exact IH | reflexivity].
Qed.

Lemma dropwhile_nil_iff f a : dropwhile f a = [] <-> forallb f a = true.
Proof.
  induction a as [|d a IH]; simpl; [tauto|].
  destruct (f d); simpl; [exact IH | split; discriminate].
Qed.

Lemma literal_before p v t r :
  ~ In newline p ->
  literal p (v ++ newline :: t) = Some r ->
  exists r0, literal p v = Some r0 /\ r = r0 ++ newline :: t.
Proof.
  revert v; induction p as [|a p IH]; intros v Hp; simpl.
  - intros [= <-]. now exists v.
  - destruct v as [|b v]; simpl.
    + destruct (Ascii.eqb_spec a newline) as [->|_]; [|discriminate].
      exfalso; apply Hp; now left.
    + destruct (Ascii.eqb a b); [|discriminate].
      apply IH. intros H; apply Hp; now right.
Qed.

Lemma plus_space_before v t r :
  plus isspace (v ++ newline :: t) = Some r ->
  (exists r0, plus isspace v = Some r0 /\ r0 <> [] /\ r = r0 ++ newline :: t)
  \/ r = dropwhile isspace t.
Proof.
  destruct v as [|c v]; simpl.
  - intros [= <-]. now right.
  - destruct (isspace c); [|discriminate]. intros [= <-].
    destruct (dropwhile isspace v) as [|d w] eqn:E.
    + right. apply dropwhile_nil_iff in E.
      induction v as [|e v IH]; simpl in *; [reflexivity|].
      apply andb_prop in E as [-> E]. now apply IH.
    + left. exists (d :: w). split; [reflexivity|]. split; [discriminate|].
      rewrite <- E. apply dropwhile_nonempty_app. congruence.
Qed.

Lemma plus_word_before v t r :
  plus isword (v ++ newline :: t) = Some r ->
  exists r0, plus isword v = Some r0 /\ r = r0 ++ newline :: t.
Proof.
  destruct v as [|c v]; simpl; [discriminate|].
  destruct (isword c); [|discriminate]. intros [= <-].
  exists (dropwhile isword v). split; [reflexivity|].
  now apply dropwhile_stop.
Qed.

(** A header match that starts before a line break followed by another
    header ends before that line break. *)
Lemma class_header_before v n x r :
  class_header n = Some x ->
  class_header (v ++ newline :: n) = Some r ->
  exists r0, class_header v = Some r0 /\ r = r0 ++ newline :: n.
Proof.
  intros Hn.
  apply class_header_spec in Hn as (h & Hh & ->).
  destruct (Header_shape h Hh) as (sp & t & -> & Hsp).
  unfold class_header, and_then.
  destruct (literal (lit "class") (v ++ _)) as [s1|] eqn:E1; [|discriminate].
  apply literal_before in E1 as (s1' & E1 & ->);
    [| vm_compute; intuition discriminate].
  rewrite E1.
  destruct (plus isspace (s1' ++ _)) as [s2|] eqn:E2; [|discriminate].
  apply plus_space_before in E2 as [(s2' & E2 & _ & ->)| ->].
  - rewrite E2.
    destruct (plus isword (s2' ++ _)) as [s3|] eqn:E3; [|discriminate].
    apply plus_word_before in E3 as (s3' & E3 & ->). rewrite E3.
    intros E4. apply literal_before in E4; [exact E4|].
    vm_compute; intuition discriminate.
  - assert (Hw : isword sp = false).
    { destruct (isword sp) eqn:E; [|reflexivity].
      apply isword_not_space in E. congruence. }
    rewrite <- !app_assoc.
    change (dropwhile isspace (lit "class" ++ (sp :: t) ++ x))
      with (lit "class" ++ sp :: t ++ x).
    rewrite (plus_app isword (lit "class") sp) by (discriminate || auto).
    change (literal (lit "(Base):") (sp :: t ++ x))
      with (if Ascii.eqb "("%char sp
            then literal (lit "Base):") (t ++ x) else None).
    destruct (Ascii.eqb_spec "("%char sp) as [<-|_];
      [discriminate Hsp | discriminate].
Qed.

(** * The lazy body *)

Lemma lazy_body_spec s b r :
  lazy_body s = (b, r) ->
  s = b ++ r /\ lookahead r = true /\
  forall b1 c b2, b = b1 ++ c :: b2 -> lookahead (c :: b2 ++ r) = false.
Proof.
  revert b r; induction s as [|c s IH]; intros b r.
  - simpl. intros [= <- <-]. repeat split. intros [|] ? ? ?; discriminate.
  - unfold lazy_body; fold lazy_body.
    destruct (lookahead (c :: s)) eqn:E.
    + intros [= <- <-]. repeat split; [exact E|]. intros [|] ? ? ?; discriminate.
    + destruct (lazy_body s) as [b' r'] eqn:E'. intros [= <- <-].
      destruct (IH _ _ eq_refl) as (-> & Hr & Hmin).
      repeat split; [exact Hr|].
      intros [|d b1] c' b2; simpl; intros [= <- Hb].
      * subst b'. exact E.
      * now apply (Hmin b1).
Qed.

Lemma lazy_body_unique b r :
  lookahead r = true ->
  (forall b1 c b2, b = b1 ++ c :: b2 -> lookahead (c :: b2 ++ r) = false) ->
  lazy_body (b ++ r) = (b, r).
Proof.
  intros Hr. induction b as [|c b IH]; intros Hmin.
  - simpl. destruct r; simpl in *; now rewrite ?Hr.
  - change ((c :: b) ++ r) with (c :: b ++ r).
    unfold lazy_body; fold lazy_body.
    rewrite (Hmin [] c b eq_refl).
    rewrite IH; [reflexivity|].
    intros b1 d b2 ->. now apply (Hmin (c :: b1)).
Qed.

(** * One match of the class pattern, and all of them *)

Lemma Header_nonempty h : Header h -> h <> [].
Proof. intros (ws & wd & -> & _). discriminate. Qed.

Lemma firstn_app_exact {A} (a b : list A) :
  firstn (length (a ++ b) - length b) (a ++ b) = a.
Proof.
  rewrite length_app, Nat.add_sub.
  rewrite firstn_app, Nat.sub_diag, firstn_all. simpl. apply app_nil_r.
Qed.

Lemma CLASS_PATTERN_spec s m rest :
  CLASS_PATTERN s = Some (m, rest) ->
  exists h b, Header h /\ m = h ++ b /\ s = h ++ b ++ rest /\
              lazy_body (b ++ rest) = (b, rest).
Proof.
  unfold CLASS_PATTERN.
  destruct (class_header s) as [ah|] eqn:E; [|discriminate].
  apply class_header_spec in E as (h & Hh & ->).
  destruct (lazy_body ah) as [b r] eqn:Eb. intros [= <- <-].
  destruct (lazy_body_spec _ _ _ Eb) as (-> & _).
  exists h, b. rewrite firstn_app_exact. now rewrite Eb in *.
Qed.

Lemma CLASS_PATTERN_intro h b rest :
  Header h -> lazy_body (b ++ rest) = (b, rest) ->
  CLASS_PATTERN (h ++ b ++ rest) = Some (h ++ b, rest).
Proof.
  intros Hh Hb. unfold CLASS_PATTERN.
  rewrite (Header_match h _ Hh), Hb. now rewrite firstn_app_exact.
Qed.

Lemma CLASS_PATTERN_shorter s m rest :
  CLASS_PATTERN s = Some (m, rest) -> length rest < length s.
Proof.
  intros H. apply CLASS_PATTERN_spec in H as (h & b & Hh & _ & -> & _).
  apply Header_nonempty in Hh. destruct h; [congruence|].
  simpl. rewrite !length_app. lia.
Qed.

(** The bound on the positions tried is never reached. *)
Lemma findall_from_enough n m s :
  length s < n -> length s < m -> findall_from n s = findall_from m s.
Proof.
  revert m s; induction n as [|n IH]; intros [|m] s Hn Hm; try lia.
  simpl. destruct (CLASS_PATTERN s) as [[mt rest]|] eqn:E.
  - apply CLASS_PATTERN_shorter in E. f_equal. apply IH; lia.
  - destruct s as [|c s]; [reflexivity|]. simpl in *. apply IH; lia.
Qed.

(** [findall] as the search it is: a match, then the matches of the text
    after it; no match at this position, then the matches from the next
    one. *)
Lemma findall_eq s :
  findall s =
  match CLASS_PATTERN s with
  | Some (m, rest) => m :: findall rest
  | None => match s with [] => [] | _ :: s' => findall s' end
  end.
Proof.
  unfold findall at 1. simpl.
  destruct (CLASS_PATTERN s) as [[mt rest]|] eqn:E.
  - apply CLASS_PATTERN_shorter in E. f_equal.
    apply findall_from_enough; lia.
  - destruct s as [|c s]; [reflexivity|].
    apply findall_from_enough; simpl; lia.
Qed.

Lemma class_header_newline s : class_header (newline :: s) = None.
Proof. reflexivity. Qed.

Lemma findall_newline s : findall (newline :: s) = findall s.
Proof.
  rewrite findall_eq. unfold CLASS_PATTERN. now rewrite class_header_newline.
Qed.

Lemma findall_nil : findall [] = [].
Proof. reflexivity. Qed.

(** * Trimming *)

Lemma rstrip_decomp b : exists w, b = rstrip b ++ w.
Proof.
  unfold rstrip. exists (rev (takewhile isspace (rev b))).
  rewrite <- rev_app_distr, takewhile_dropwhile. now rewrite rev_involutive.
Qed.

Lemma rstrip_Header_app h b : Header h -> rstrip (h ++ b) = h ++ rstrip b.
Proof.
  intros Hh. destruct (Header_ends h Hh) as (_ & _ & h' & ->).
  unfold rstrip. rewrite !rev_app_distr. simpl.
  rewrite <- app_assoc. simpl.
  rewrite dropwhile_stop by reflexivity.
  rewrite rev_app_distr. simpl. rewrite rev_involutive.
  now rewrite <- !app_assoc.
Qed.

Lemma strip_Header_app h b : Header h -> strip (h ++ b) = h ++ rstrip b.
Proof.
  intros Hh. unfold strip.
  destruct (Header_ends h Hh) as (t & E & _).
  assert (L : lstrip (h ++ b) = h ++ b) by (rewrite E; reflexivity).
  rewrite L. now apply rstrip_Header_app.
Qed.

Lemma rstrip_idem s : rstrip (rstrip s) = rstrip s.
Proof.
  unfold rstrip. rewrite rev_involutive. now rewrite dropwhile_idem.
Qed.

Lemma lstrip_fix s : dropwhile isspace s = s -> forall w, s = rstrip s ++ w ->
  lstrip (rstrip s) = rstrip s.
Proof.
  intros Hs w Hw. unfold lstrip.
  destruct (rstrip s) as [|c r] eqn:E; [reflexivity|].
  rewrite Hw in Hs. simpl in Hs. simpl.
  destruct (isspace c) eqn:Ec; [|reflexivity].
  exfalso.
  assert (Hl : length (dropwhile isspace (r ++ w)) <= length (r ++ w)).
  { generalize (r ++ w). intros l; induction l as [|d l IH]; simpl; [lia|].
    destruct (isspace d); simpl; lia. }
  rewrite Hs in Hl. simpl in Hl. lia.
Qed.

Lemma strip_idem s : strip (strip s) = strip s.
Proof.
  unfold strip.
  destruct (rstrip_decomp (lstrip s)) as [w Hw].
  rewrite (lstrip_fix (lstrip s)) with (w := w).
  - apply rstrip_idem.
  - apply dropwhile_idem.
  - exact Hw.
Qed.

Lemma join_head sep p ps : exists y, join sep (p :: ps) = p ++ y.
Proof.
  destruct ps as [|q ps]; [exists []; simpl; now rewrite app_nil_r|].
  eexists. reflexivity.
Qed.

Lemma chunk_none text : chunk None text = map strip (findall text).
Proof.
  unfold chunk. induction (findall text) as [|b l IH]; simpl; [reflexivity|].
  now rewrite IH.
Qed.

Lemma chunk_zero text : chunk (Some 0%Z) text = map strip (findall text).
Proof.
  unfold chunk. induction (findall text) as [|b l IH]; simpl; [reflexivity|].
  now rewrite IH.
Qed.

(** * Chunking the rejoined chunks *)

(** In a matched span the body holds no earlier position where the
    lookahead succeeds; this survives trimming the span and placing it before
    a line break and the next header (or at the end of the text). *)
Lemma trimmed_body_minimal b rest n :
  lazy_body (b ++ rest) = (b, rest) ->
  (n = [] \/ exists n' x, n = newline :: n' /\ class_header n' = Some x) ->
  lazy_body (rstrip b ++ n) = (rstrip b, n).
Proof.
  intros Hb Hn. apply lazy_body_spec in Hb as (_ & _ & Hmin).
  destruct (rstrip_decomp b) as [w Hw].
  apply lazy_body_unique.
  - destruct Hn as [->|(n' & x & -> & Hx)]; [reflexivity|].
    simpl. now rewrite Hx.
  - intros b1 c b2 E.
    destruct (lookahead (c :: b2 ++ n)) eqn:L; [|reflexivity].
    exfalso.
    assert (Hold : lookahead (c :: (b2 ++ w) ++ rest) = false).
    { apply (Hmin b1). rewrite Hw at 1. rewrite E.
      now rewrite <- !app_assoc. }
    simpl in L, Hold.
    destruct (Ascii.eqb c newline); [|discriminate]. simpl in L, Hold.
    destruct (class_header (b2 ++ n)) as [r|] eqn:Hr; [|discriminate].
    assert (Hb2 : exists r0, class_header b2 = Some r0).
    { destruct Hn as [->|(n' & x & -> & Hx)].
      - rewrite app_nil_r in Hr. now exists r.
      - destruct (class_header_before _ _ _ _ Hx Hr) as (r0 & H0 & _).
        now exists r0. }
    destruct Hb2 as [r0 H0].
    rewrite <- app_assoc in Hold.
    rewrite (class_header_app _ _ (w ++ rest) H0) in Hold. discriminate.
Qed.

Lemma join_cons sep p l :
  l <> [] -> join sep (p :: l) = p ++ sep ++ join sep l.
Proof. destruct l; [congruence | reflexivity]. Qed.

Lemma rechunk_trimmed text :
  findall (join [newline] (map strip (findall text))) = map strip (findall text).
Proof.
  remember (length text) as k eqn:Hk. revert text Hk.
  induction k as [k IH] using lt_wf_ind. intros text ->.
  rewrite (findall_eq text).
  destruct (CLASS_PATTERN text) as [[m rest]|] eqn:E.
  - pose proof (CLASS_PATTERN_shorter _ _ _ E) as Hlen.
    apply CLASS_PATTERN_spec in E as (h & b & Hh & -> & -> & Hb).
    pose proof (lazy_body_spec _ _ _ Hb) as (_ & Hla & _).
    destruct rest as [|c rest].
    + rewrite findall_nil. simpl.
      rewrite (strip_Header_app h b Hh).
      rewrite <- (app_nil_r (h ++ rstrip b)) at 1. rewrite <- app_assoc.
      rewrite findall_eq.
      rewrite (CLASS_PATTERN_intro h (rstrip b) [] Hh)
        by (apply (trimmed_body_minimal b []); auto).
      now rewrite findall_nil.
    + simpl in Hla.
      destruct (Ascii.eqb_spec c newline) as [->|]; [|discriminate].
      destruct (class_header rest) as [x|] eqn:Hx; [|discriminate].
      rewrite findall_newline.
      assert (Hrest : length rest < length (h ++ b ++ newline :: rest))
        by (rewrite !length_app; simpl; lia).
      specialize (IH _ Hrest rest eq_refl).
      assert (Hne : exists m2 l2, findall rest = m2 :: l2 /\
                                  exists h2 b2, Header h2 /\ m2 = h2 ++ b2).
      { rewrite findall_eq. unfold CLASS_PATTERN at 1. rewrite Hx.
        destruct (lazy_body x) as [b2 r2] eqn:E2.
        apply class_header_spec in Hx as (h2 & Hh2 & ->).
        do 2 eexists. split; [reflexivity|].
        exists h2, b2. rewrite firstn_app_exact. auto. }
      destruct Hne as (m2 & l2 & Hf & h2 & b2 & Hh2 & ->).
      assert (Hn : exists y, class_header
                     (join [newline] (map strip (findall rest))) = Some y).
      { rewrite Hf. simpl map.
        destruct (join_head [newline] (strip (h2 ++ b2)) (map strip l2))
          as [y ->].
        rewrite (strip_Header_app h2 b2 Hh2), <- app_assoc.
        eexists. now apply Header_match. }
      destruct Hn as [y Hy].
      simpl map.
      rewrite join_cons by (rewrite Hf; discriminate).
      remember (join [newline] (map strip (findall rest))) as n eqn:Hn.
      rewrite (strip_Header_app h b Hh), <- app_assoc.
      change ([newline] ++ n) with (newline :: n).
      rewrite findall_eq.
      rewrite (CLASS_PATTERN_intro h (rstrip b) _ Hh).
      * rewrite findall_newline. f_equal. exact IH.
      * apply (trimmed_body_minimal b (newline :: rest)); [exact Hb|].
        right. now exists n, y.
  - destruct text as [|c text]; [reflexivity|].
    apply (IH (length text)); simpl; auto.
Qed.

(** * Splitting a large block *)

Section Packing.
Variable m : Z.
Variable header : str.

Lemma groups_first running members :
  exists ext rest, groups m header running members = (running ++ ext) :: rest.
Proof.
  revert running; induction members as [|p ps IH]; intros running; simpl.
  - exists [], []. now rewrite app_nil_r.
  - destruct (_ >? _)%Z.
    + exists [], (groups m header [header; p] ps). now rewrite app_nil_r.
    + destruct (IH (running ++ [p])) as (ext & rest & ->).
      exists (p :: ext), rest. now rewrite <- app_assoc.
Qed.

(** The loop on the strings is the loop on the groups, joined. *)
Lemma pack_groups members subs running :
  running <> [] ->
  (let (sub_chunks, r) := fold_left (pack m header) members (subs, running) in
   match r with
   | [] => sub_chunks
   | _ :: _ => sub_chunks ++ [join [newline] r]
   end) = subs ++ map (join [newline]) (groups m header running members).
Proof.
  revert subs running; induction members as [|p ps IH]; intros subs running Hr.
  - simpl. destruct running; [congruence | reflexivity].
  - simpl. destruct (_ >? _)%Z.
    + rewrite IH by discriminate. simpl. now rewrite <- app_assoc.
    + rewrite IH; [reflexivity|]. destruct running; discriminate.
Qed.

Lemma groups_headers running members :
  hd_error running = Some header ->
  Forall (fun g => hd_error g = Some header) (groups m header running members).
Proof.
  revert running; induction members as [|p ps IH]; intros running Hr; simpl.
  - now constructor.
  - destruct (_ >? _)%Z.
    + constructor; [exact Hr | now apply IH].
    + apply IH. destruct running; [discriminate | exact Hr].
Qed.

Lemma groups_members running members :
  running <> [] ->
  concat (map (@tl str) (groups m header running members)) = tl running ++ members.
Proof.
  revert running; induction members as [|p ps IH]; intros running Hr; simpl.
  - reflexivity.
  - destruct (_ >? _)%Z; simpl.
    + rewrite IH by discriminate. reflexivity.
    + rewrite IH by (destruct running; discriminate).
      destruct running; [congruence|]. simpl. now rewrite <- app_assoc.
Qed.

Lemma groups_closed_when_full members : forall running l1 g p ms l2,
  groups m header running members = l1 ++ g :: (header :: p :: ms) :: l2 ->
  (total_len g + len p > m)%Z.
Proof.
  induction members as [|q qs IH]; intros running l1 g p ms l2; simpl.
  - destruct l1 as [|? [|? ?]]; discriminate.
  - destruct (_ >? _)%Z eqn:E.
    + destruct l1 as [|x l1]; simpl.
      * intros [= <- H].
        destruct (groups_first [header; q] qs) as (ext & rest & Hf).
        rewrite Hf in H. simpl in H. inversion H; subst. lia.
      * intros [= _ H]. exact (IH _ _ _ _ _ _ H).
    + apply IH.
Qed.

Lemma groups_all_hold running members :
  tl running <> [] ->
  Forall (fun g => tl g <> []) (groups m header running members).
Proof.
  revert running; induction members as [|p ps IH]; intros running Hr; simpl.
  - now constructor.
  - destruct (_ >? _)%Z.
    + constructor; [exact Hr | apply IH; discriminate].
    + apply IH. destruct running as [|a [|b r]]; simpl in *; congruence.
Qed.

Lemma groups_later_hold running members :
  Forall (fun g => tl g <> []) (tl (groups m header running members)).
Proof.
  revert running; induction members as [|p ps IH]; intros running; simpl.
  - constructor.
  - destruct (_ >? _)%Z; [|apply IH].
    simpl. apply groups_all_hold. discriminate.
Qed.

Lemma groups_kept_when_fits members : forall rs l1 ms1 p ms2 l2,
  groups m header (header :: rs) members
    = l1 ++ (header :: ms1 ++ p :: ms2) :: l2 ->
  (l1 = [] -> length rs <= length ms1) ->
  (l1 <> [] -> ms1 <> []) ->
  (total_len (header :: ms1) + len p <= m)%Z.
Proof.
  induction members as [|q qs IH]; intros rs l1 ms1 p ms2 l2; simpl.
  - destruct l1 as [|? [|? ?]]; try discriminate.
    simpl. intros E Hl _. injection E as ->. specialize (Hl eq_refl).
    rewrite length_app in Hl. simpl in Hl. lia.
  - destruct (_ >? _)%Z eqn:E.
    + destruct l1 as [|x l1]; simpl.
      * intros E' Hl _. injection E' as -> _. specialize (Hl eq_refl).
        rewrite length_app in Hl. simpl in Hl. lia.
      * intros E' _ Hms. injection E' as _ E'.
        apply (IH [q] l1 ms1 p ms2 l2 E').
        -- intros _. simpl.
           destruct ms1; [exfalso; now apply Hms | simpl; lia].
        -- intros _. now apply Hms.
    + intros E' Hl Hms.
      destruct l1 as [|x l1].
      * specialize (Hl eq_refl).
        destruct (Nat.eq_dec (length rs) (length ms1)) as [Heq|Hne].
        -- destruct (groups_first ((header :: rs) ++ [q]) qs)
             as (ext & rest & Hf).
           simpl in Hf, E'. rewrite Hf in E'. injection E' as E' _.
           rewrite <- app_assoc in E'. simpl in E'.
           apply app_eq_app in E' as [l [[H1 H2]|[H1 H2]]].
           ++ subst rs. rewrite length_app in Heq.
              destruct l; [|simpl in Heq; lia].
              rewrite app_nil_r in *. simpl in H2. injection H2 as <- _.
              simpl in E |- *. lia.
           ++ subst ms1. rewrite length_app in Heq.
              destruct l; [|simpl in Heq; lia].
              rewrite app_nil_r in *. simpl in H2. injection H2 as <- _.
              simpl in E |- *. lia.
        -- apply (IH (rs ++ [q]) [] ms1 p ms2 l2 E').
           ++ intros _. rewrite length_app. simpl. lia.
           ++ congruence.
      * apply (IH (rs ++ [q]) (x :: l1) ms1 p ms2 l2 E');
          [discriminate | exact Hms].
Qed.

End Packing.

(** [re.split] returns one part at least, so [parts[0]] exists. *)
Lemma re_split_from_nonempty fuel s : re_split_from fuel s <> [].
Proof.
  revert s; induction fuel as [|n IH]; intros s; simpl; [discriminate|].
  destruct (member_boundary s); [discriminate|].
  destruct s; [discriminate|].
  specialize (IH s). destruct (re_split_from n s); [congruence | discriminate].
Qed.

Lemma member_boundary_shorter s rest :
  member_boundary s = Some rest -> length rest < length s.
Proof.
  destruct s as [|n [|a [|b [|c [|d [|x s]]]]]]; try discriminate.
  unfold member_boundary. destruct (_ && _); [|discriminate].
  intros [= <-]. simpl. lia.
Qed.

Lemma re_split_from_enough n m s :
  length s < n -> length s < m -> re_split_from n s = re_split_from m s.
Proof.
  revert m s; induction n as [|n IH]; intros [|m] s Hn Hm; try lia.
  simpl. destruct (member_boundary s) as [rest|] eqn:E.
  - apply member_boundary_shorter in E. f_equal. apply IH; lia.
  - destruct s as [|c s]; [reflexivity|]. simpl in *. f_equal. apply IH; lia.
Qed.

(** [re.split] as the search it is: a boundary here ends the current part;
    otherwise the character joins it. *)
Lemma re_split_eq s :
  re_split s =
  match member_boundary s with
  | Some rest => [] :: re_split rest
  | None => match s with
            | [] => [[]]
            | c :: s' => cons_head c (re_split s')
            end
  end.
Proof.
  unfold re_split at 1. simpl.
  destruct (member_boundary s) as [rest|] eqn:E.
  - apply member_boundary_shorter in E. f_equal.
    apply re_split_from_enough; lia.
  - destruct s as [|c s]; reflexivity.
Qed.

Lemma split_large_block_groups m block :
  _split_large_block m block =
  map (join [newline])
      (groups m (hd [] (re_split block)) [hd [] (re_split block)]
              (tl (re_split block))).
Proof.
  unfold _split_large_block.
  now rewrite (pack_groups m _ (tl (re_split block)) [] [_]) by discriminate.
Qed.

Lemma join_starts sep g h : hd_error g = Some h -> exists t, join sep g = h ++ t.
Proof.
  destruct g as [|x g]; [discriminate|]. intros [= ->]. apply join_head.
Qed.

Lemma total_len_nonneg running : (0 <= total_len running)%Z.
Proof.
  unfold total_len, len. induction running as [|x r IH]; simpl; lia.
Qed.

Lemma total_len_app r1 r2 : total_len (r1 ++ r2) = (total_len r1 + total_len r2)%Z.
Proof.
  unfold total_len. induction r1 as [|x r IH]; simpl; [reflexivity|].
  rewrite IH. lia.
Qed.

Lemma len_app a b : len (a ++ b) = (len a + len b)%Z.
Proof. unfold len. rewrite length_app. lia. Qed.

(** A joined group is as long as its parts and the line breaks between
    them. *)
Lemma len_join_newline g :
  g <> [] ->
  len (join [newline] g) = (total_len g + Z.of_nat (length g) - 1)%Z.
Proof.
  induction g as [|x g IH]; [congruence|]. intros _.
  destruct g as [|y g].
  - unfold total_len, len. simpl. lia.
  - rewrite join_cons by discriminate. rewrite !len_app, IH by discriminate.
    change (total_len (x :: y :: g)) with (len x + total_len (y :: g))%Z.
    change (len [newline]) with 1%Z.
    change (length (x :: y :: g)) with (S (length (y :: g))). lia.
Qed.

(** The size read off a sub-chunk is the sum the code forms. *)
Lemma size_without_breaks_total g :
  g <> [] -> size_without_breaks g = total_len g.
Proof.
  intros Hg. unfold size_without_breaks. rewrite len_join_newline by exact Hg. lia.
Qed.

Lemma groups_greedy m header members :
  Greedy m header members (groups m header [header] members).
Proof.
  pose proof (groups_headers m header [header] members eq_refl) as Hh.
  repeat split.
  - exact Hh.
  - now rewrite groups_members by discriminate.
  - intros l1 g p ms l2 E.
    rewrite size_without_breaks_total.
    + now apply (groups_closed_when_full m header members [header] l1 g p ms l2).
    + rewrite E in Hh. apply Forall_app in Hh as [_ Hh].
      inversion Hh as [|? ? Hg _]; subst. destruct g; discriminate.
  - apply groups_later_hold.
  - intros l1 ms1 p ms2 l2 H Hc.
    rewrite size_without_breaks_total by discriminate.
    apply (groups_kept_when_fits m header members [] l1 ms1 p ms2 l2 H).
    + intros _. simpl. lia.
    + intros Hl. destruct Hc; [contradiction | assumption].
Qed.

Lemma re_split_head_cons c s :
  c <> newline -> hd [] (re_split (c :: s)) = c :: hd [] (re_split s).
Proof.
  intros Hc. rewrite re_split_eq.
  assert (E : member_boundary (c :: s) = None).
  { unfold member_boundary.
    destruct s as [|a [|b [|c' [|d [|x s]]]]]; try reflexivity.
    destruct (Ascii.eqb_spec c newline); [congruence | reflexivity]. }
  rewrite E. unfold re_split.
  pose proof (re_split_from_nonempty (S (length s)) s) as Hn.
  destruct (re_split_from (S (length s)) s); [congruence | reflexivity].
Qed.

(** A header on one line is not cut by [re.split]: it begins the first
    part. *)
Lemma re_split_head_app h rest :
  forallb (fun c => negb (Ascii.eqb c newline)) h = true ->
  hd [] (re_split (h ++ rest)) = h ++ hd [] (re_split rest).
Proof.
  induction h as [|c h IH]; [reflexivity|]. simpl.
  intros H. apply andb_prop in H as [Hc Hh].
  rewrite re_split_head_cons, IH by
    (assumption || (intros ->; rewrite Ascii.eqb_refl in Hc; discriminate)).
  reflexivity.
Qed.

(** * The chunker's claims *)

Lemma findall_headerless pre t :
  headerless pre t = true -> findall (pre ++ t) = findall t.
Proof.
  induction pre as [|c pre IH]; [reflexivity|].
  cbn [headerless].
  destruct (class_header ((c :: pre) ++ t)) eqn:E; [discriminate|].
  intros H. rewrite findall_eq. unfold CLASS_PATTERN. rewrite E.
  simpl. now apply IH.
Qed.

(** C6, as the code has it: the empty text yields no chunk, and text with no
    header match is dropped, not emitted: a text [pre ++ t] in which no
    header match starts inside [pre] yields exactly the chunks of [t], so a
    text with no header match at all yields none. *)
Theorem chunk_drops_headerless_text :
  (forall max_chunk_size, chunk max_chunk_size [] = []) /\
  (forall max_chunk_size pre t,
      headerless pre t = true ->
      chunk max_chunk_size (pre ++ t) = chunk max_chunk_size t) /\
  (forall max_chunk_size text,
      headerless text [] = true -> chunk max_chunk_size text = []).
Proof.
  split; [reflexivity|]. split.
  - intros mx pre t H. unfold chunk. now rewrite findall_headerless.
  - intros mx text H. unfold chunk.
    rewrite <- (app_nil_r text), findall_headerless by exact H. reflexivity.
Qed.

Lemma chunk_drops_headerless_text_witness :
  headerless (lines ["import os"; ""]) (lines ["class A(Base):"; "    pass"])
    = true /\
  chunk None (lines ["import os"; "class A(Base):"; "    pass"])
    = chunk None (lines ["class A(Base):"; "    pass"]) /\
  headerless (lit "no entity here") [] = true /\
  chunk None (lit "no entity here") = [].
Proof.
  destruct chunk_drops_headerless_text as (_ & Hpre & Hall).
  split; [reflexivity|]. split.
  - apply (Hpre None (lines ["import os"; ""])
                (lines ["class A(Base):"; "    pass"])). reflexivity.
  - split; [reflexivity|]. apply Hall. reflexivity.
Defined.

(** C6 as the spec words it fails: the text before the first header is not
    among the chunks, and a text without a header gives no chunk. *)
Lemma chunk_headerless_counterexample :
  chunk None (lines ["import os"; "class A(Base):"; "    pass"])
    = [lines ["class A(Base):"; "    pass"]] /\
  chunk None (lit "no entity here") = [].
Proof. split; reflexivity. Qed.

(** Every match of [findall] is a header followed by a minimal body. *)
Lemma findall_In text m :
  In m (findall text) ->
  exists h b rest, Header h /\ m = h ++ b /\
                   lazy_body (b ++ rest) = (b, rest).
Proof.
  remember (length text) as k eqn:Hk. revert text Hk.
  induction k as [k IH] using lt_wf_ind. intros text -> Hin.
  rewrite findall_eq in Hin.
  destruct (CLASS_PATTERN text) as [[m' rest]|] eqn:E.
  - pose proof (CLASS_PATTERN_shorter _ _ _ E) as Hlen.
    destruct Hin as [<-|Hin]; [|exact (IH _ Hlen rest eq_refl Hin)].
    apply CLASS_PATTERN_spec in E as (h & b & Hh & -> & _ & Hb).
    now exists h, b, rest.
  - destruct text as [|c text]; [destruct Hin|].
    apply (IH (length text)) with (text := text); simpl; auto.
Qed.




Lemma chunk_unsplit mx text :
  unsplit mx text = true -> chunk mx text = map strip (findall text).
Proof.
  destruct mx as [m|]; [|intros _; apply chunk_none].
  unfold unsplit, chunk. intros H.
  destruct (Z.eqb_spec m 0) as [->|Hm]; [apply chunk_zero|].
  simpl in H.
  induction (findall text) as [|s l IH]; [reflexivity|].
  simpl in H. apply andb_prop in H as [Hs Hl].
  cbn [flat_map map]. rewrite (IH Hl). unfold chunk_block at 1.
  replace (len (strip s) >? m)%Z with false by lia.
  now rewrite andb_false_r.
Qed.

(** C8, as the code has it: when no span is split (no size limit, a limit
    of [0], or every trimmed span within the limit), chunking the chunks
    rejoined with line breaks gives the same chunks again. *)
Theorem chunk_idempotent_when_unsplit max_chunk_size text :
  unsplit max_chunk_size text = true ->
  chunk max_chunk_size (join [newline] (chunk max_chunk_size text))
  = chunk max_chunk_size text.
Proof.
  intros H. rewrite (chunk_unsplit _ text H).
  rewrite chunk_unsplit.
  - rewrite rechunk_trimmed, map_map. apply map_ext. intros; apply strip_idem.
  - destruct max_chunk_size as [m|]; [|reflexivity].
    unfold unsplit in *. destruct (m =? 0)%Z; [reflexivity|]. simpl in *.
    rewrite rechunk_trimmed. revert H.
    induction (findall text) as [|s l IH]; [reflexivity|].
    simpl. rewrite strip_idem. intros H.
    apply andb_prop in H as [-> H]. now apply IH.
Qed.

Lemma chunk_idempotent_when_unsplit_witness :
  let text := lines ["import os"; "class A(Base):"; "    x = 1  "; "";
                     "class B(Base):"; "    y = 2"; ""] in
  unsplit (Some 40%Z) text = true /\
  chunk (Some 40%Z) (join [newline] (chunk (Some 40%Z) text))
  = chunk (Some 40%Z) text.
Proof.
  split; [reflexivity|].
  apply (chunk_idempotent_when_unsplit (Some 40%Z)). reflexivity.
Defined.

(** C8 as the spec words it fails once a span is split: the sub-chunks keep
    the trailing blanks of their members, which are trimmed away when the
    rejoined text is chunked again. *)
Lemma chunk_not_idempotent_when_split :
  let text := lines ["class A(Base):"; "    x "; "    y"] in
  chunk (Some 1%Z) text
    = [lit "class A(Base):"; lines ["class A(Base):"; "x "];
       lines ["class A(Base):"; "y"]] /\
  chunk (Some 1%Z) (join [newline] (chunk (Some 1%Z) text))
    = [lit "class A(Base):"; lines ["class A(Base):"; "x"];
       lines ["class A(Base):"; "y"]] /\
  chunk (Some 1%Z) (join [newline] (chunk (Some 1%Z) text))
    <> chunk (Some 1%Z) text.
Proof. repeat split; try reflexivity. vm_compute. discriminate. Qed.

(** * The order of floating-point numbers *)

Lemma SFcompare_refl x : x <> S754_nan -> SFcompare x x = Some Eq.
Proof.
  destruct x as [[]|[]| |[] m e]; simpl; try congruence; intros _;
    rewrite Z.compare_refl; fold (Pos.compare m m); now rewrite Pos.compare_refl.
Qed.

Lemma SFcompare_antisym x y :
  SFcompare y x = option_map CompOpp (SFcompare x y).
Proof.
  destruct x as [[]|[]| |[] m e], y as [[]|[]| |[] m' e']; simpl; try reflexivity;
    rewrite (Z.compare_antisym e e'); destruct (e ?= e')%Z; simpl; try reflexivity;
    fold (Pos.compare m m') (Pos.compare m' m);
    rewrite (Pos.compare_antisym m m'); now destruct (m ?= m')%positive.
Qed.

Lemma cmp_finite_le e m e' m' :
  cmp_finite e m e' m' <> Gt <->
  (e < e')%Z \/ (e = e' /\ (m <= m')%positive).
Proof.
  unfold cmp_finite. fold (Pos.compare m m').
  destruct (Z.compare_spec e e') as [->|H|H].
  - unfold Pos.le. split; [intros H; right; split; [reflexivity | exact H]|].
    intros [H|[_ H]]; [lia | exact H].
  - split; [intros _; now left | discriminate].
  - split; [congruence | intros [H'|[H' _]]; lia].
Qed.

Lemma cmp_finite_ge e m e' m' :
  cmp_finite e m e' m' <> Lt <->
  (e' < e)%Z \/ (e = e' /\ (m' <= m)%positive).
Proof.
  unfold cmp_finite. fold (Pos.compare m m').
  destruct (Z.compare_spec e e') as [->|H|H].
  - rewrite Pos.compare_antisym. unfold Pos.le.
    destruct (m' ?= m)%positive; simpl; split; try congruence;
      try (intros _; right; split; [reflexivity | discriminate]);
      intros [H|[_ H]]; try lia; congruence.
  - split; [congruence | intros [H'|[H' _]]; lia].
  - split; [intros _; now left | discriminate].
Qed.

Lemma SFleb_finite_pos m e m' e' :
  SFleb (S754_finite false m e) (S754_finite false m' e') = true <->
  cmp_finite e m e' m' <> Gt.
Proof.
  unfold SFleb, SFcompare. fold (cmp_finite e m e' m').
  destruct (cmp_finite e m e' m'); split; congruence.
Qed.

Lemma SFleb_finite_neg m e m' e' :
  SFleb (S754_finite true m e) (S754_finite true m' e') = true <->
  cmp_finite e m e' m' <> Lt.
Proof.
  unfold SFleb, SFcompare. unfold cmp_finite.
  destruct (e ?= e')%Z; try (split; congruence).
  destruct (Pos.compare_cont Eq m m'); simpl; split; congruence.
Qed.

Lemma SFleb_trans x y z :
  SFleb x y = true -> SFleb y z = true -> SFleb x z = true.
Proof.
  destruct x as [[]|[]| |[] m e], y as [[]|[]| |[] m' e'], z as [[]|[]| |[] m'' e''];
    try reflexivity; try discriminate;
    rewrite ?SFleb_finite_pos, ?SFleb_finite_neg,
            ?cmp_finite_le, ?cmp_finite_ge; lia.
Qed.

Lemma is_nan_spec x : is_nan x = true <-> Prim2SF x = S754_nan.
Proof.
  unfold is_nan. rewrite eqb_spec. unfold SFeqb.
  destruct (Prim2SF x) eqn:E.
  - rewrite SFcompare_refl by discriminate. split; discriminate.
  - rewrite SFcompare_refl by discriminate. split; discriminate.
  - simpl. split; reflexivity.
  - rewrite SFcompare_refl by discriminate. split; discriminate.
Qed.

Lemma leb_not_nan_l x y : (x <=? y)%float = true -> is_nan x = false.
Proof.
  rewrite leb_spec. intros H.
  destruct (is_nan x) eqn:E; [|reflexivity].
  apply is_nan_spec in E. rewrite E in H. discriminate.
Qed.

Lemma ltb_not_nan x y : (x <? y)%float = true -> is_nan y = false.
Proof.
  rewrite ltb_spec. intros H.
  destruct (is_nan y) eqn:E; [|reflexivity].
  apply is_nan_spec in E. rewrite E in H.
  destruct (Prim2SF x) as [[]|[]| |[] ? ?]; discriminate.
Qed.

Lemma np_le_total x y : np_le x y = false -> np_le y x = true.
Proof.
  unfold np_le. intros H. apply orb_false_elim in H as [Hy H].
  destruct (is_nan x) eqn:Hx; [reflexivity|]. simpl.
  rewrite leb_spec in *. unfold SFleb in *.
  rewrite (SFcompare_antisym (Prim2SF x) (Prim2SF y)).
  destruct (SFcompare (Prim2SF x) (Prim2SF y)) as [[]|] eqn:E;
    try discriminate; try reflexivity.
  exfalso.
  assert (Nx : Prim2SF x <> S754_nan)
    by (intros N; apply is_nan_spec in N; congruence).
  assert (Ny : Prim2SF y <> S754_nan)
    by (intros N; apply is_nan_spec in N; congruence).
  destruct (Prim2SF x) as [[]|[]| |[] ? ?], (Prim2SF y) as [[]|[]| |[] ? ?];
    simpl in E; congruence.
Qed.

Lemma np_le_trans x y z :
  np_le x y = true -> np_le y z = true -> np_le x z = true.
Proof.
  unfold np_le. intros Hxy Hyz.
  destruct (is_nan z) eqn:Hz; [reflexivity|]. simpl in *.
  pose proof (leb_not_nan_l _ _ Hyz) as Hy. rewrite Hy in Hxy. simpl in Hxy.
  rewrite leb_spec in *. eauto using SFleb_trans.
Qed.

(** On numbers the sort order is the usual one. *)
Lemma np_le_number x y : is_nan y = false -> np_le x y = (x <=? y)%float.
Proof. unfold np_le. now intros ->. Qed.

(** * The libraries above meet their interfaces *)

Lemma insert_index_perm a i l : Permutation (insert_index a i l) (i :: l).
Proof.
  induction l as [|j l IH]; simpl; [reflexivity|].
  destruct (np_le _ _); [reflexivity|].
  rewrite IH. apply perm_swap.
Qed.

Lemma insert_index_sorted a i l :
  StronglySorted (fun i j => np_le (nth i a nan) (nth j a nan) = true) l ->
  StronglySorted (fun i j => np_le (nth i a nan) (nth j a nan) = true)
                 (insert_index a i l).
Proof.
  induction l as [|j l IH]; simpl; intros H.
  - constructor; constructor.
  - inversion H as [|? ? Hl Hj]; subst.
    destruct (np_le (nth i a nan) (nth j a nan)) eqn:E.
    + constructor; [exact H|]. constructor; [exact E|].
      revert Hj. apply Forall_impl. intros x. now apply np_le_trans.
    + constructor; [now apply IH|].
      apply (Permutation_Forall (Permutation_sym (insert_index_perm a i l))).
      constructor; [now apply np_le_total | exact Hj].
Qed.

Lemma stable_argsort_perm a : Permutation (stable_argsort a) (seq 0 (length a)).
Proof.
  unfold stable_argsort. induction (seq 0 (length a)) as [|i l IH]; simpl.
  - reflexivity.
  - rewrite insert_index_perm. now constructor.
Qed.

Lemma stable_argsort_sorted a :
  StronglySorted (fun i j => np_le (nth i a nan) (nth j a nan) = true)
                 (stable_argsort a).
Proof.
  unfold stable_argsort. induction (seq 0 (length a)) as [|i l IH]; simpl.
  - constructor.
  - now apply insert_index_sorted.
Qed.

#[export] Instance stable_numpy : Numpy :=
  {| argsort := stable_argsort;
     argsort_perm := stable_argsort_perm;
     argsort_sorted := stable_argsort_sorted |}.

(** A scorer that accepts every corpus. *)
Definition overlap_scorer : RankBM25.
Proof.
  refine {| BM25Okapi_t := list (list str);
            BM25Okapi := fun corpus => inr corpus;
            get_scores := overlap_scores |}.
  intros corpus b query [= <-]. apply length_map.
Defined.

(** A scorer that refuses the empty corpus, as one that averages the
    document lengths does. *)
Definition averaging_scorer : RankBM25.
Proof.
  refine {| BM25Okapi_t := list (list str);
            BM25Okapi := fun corpus =>
              match corpus with
              | [] => inl (LibraryError "division by zero")
              | _ :: _ => inr corpus
              end;
            get_scores := overlap_scores |}.
  intros [|d corpus] b query; [discriminate|]. intros [= <-]. apply length_map.
Defined.

(** * Slices, reversal and sorted lists *)

Lemma slice_last_suffix {A} k (a : list A) :
  exists pre, a = pre ++ slice_last k a.
Proof.
  unfold slice_last. eexists. symmetry. apply firstn_skipn.
Qed.

Lemma slice_last_length {A} k (a : list A) :
  (1 <= k)%Z -> length (slice_last k a) = Nat.min (Z.to_nat k) (length a).
Proof.
  intros Hk. unfold slice_last. rewrite length_skipn.
  replace (- k <? 0)%Z with true by lia. lia.
Qed.

Lemma slice_last_zero {A} (a : list A) : slice_last 0 a = a.
Proof.
  unfold slice_last. simpl.
  now replace (Z.min 0 (Z.of_nat (length a))) with 0%Z by lia.
Qed.

Lemma StronglySorted_app_inv {A} (R : A -> A -> Prop) l1 l2 :
  StronglySorted R (l1 ++ l2) ->
  StronglySorted R l2 /\ forall x y, In x l1 -> In y l2 -> R x y.
Proof.
  induction l1 as [|a l1 IH]; simpl; intros H.
  - split; [exact H | intros ? ? []].
  - inversion H as [|? ? Hs Hf]; subst.
    destruct (IH Hs) as [H2 H12]. split; [exact H2|].
    intros x y [<-|Hx] Hy; [|now apply H12].
    rewrite Forall_forall in Hf. apply Hf. apply in_or_app. now right.
Qed.

Lemma StronglySorted_snoc {A} (R : A -> A -> Prop) l a :
  StronglySorted R l -> Forall (fun x => R x a) l -> StronglySorted R (l ++ [a]).
Proof.
  induction l as [|b l IH]; simpl; intros Hs Hf.
  - constructor; constructor.
  - inversion Hs; subst. inversion Hf; subst.
    constructor; [now apply IH|].
    apply Forall_app. split; [assumption | now constructor].
Qed.

Lemma StronglySorted_rev {A} (R : A -> A -> Prop) l :
  StronglySorted R l -> StronglySorted (fun x y => R y x) (rev l).
Proof.
  induction 1 as [|a l Hs IH Hf]; simpl; [constructor|].
  apply StronglySorted_snoc; [exact IH|].
  apply Forall_rev. exact Hf.
Qed.

Lemma StronglySorted_filter {A} (R : A -> A -> Prop) f l :
  StronglySorted R l -> StronglySorted R (filter f l).
Proof.
  induction 1 as [|a l Hs IH Hf]; simpl; [constructor|].
  destruct (f a); [|exact IH].
  constructor; [exact IH|].
  rewrite Forall_forall in *. intros x Hx.
  apply filter_In in Hx as [Hx _]. now apply Hf.
Qed.

Lemma StronglySorted_map_inv {A B} (R : B -> B -> Prop) (g : A -> B) l :
  StronglySorted R (map g l) -> StronglySorted (fun x y => R (g x) (g y)) l.
Proof.
  induction l as [|a l IH]; simpl; intros H; [constructor|].
  inversion H as [|? ? Hs Hf]; subst.
  constructor; [now apply IH|].
  rewrite Forall_forall in *. intros x Hx. apply Hf. now apply in_map.
Qed.

Lemma StronglySorted_impl_in {A} (R S : A -> A -> Prop) l :
  (forall x y, In x l -> In y l -> R x y -> S x y) ->
  StronglySorted R l -> StronglySorted S l.
Proof.
  intros H Hs. induction Hs as [|a l Hs IH Hf]; [constructor|].
  constructor.
  - apply IH. intros x y Hx Hy. apply H; now right.
  - rewrite Forall_forall in *. intros x Hx.
    apply H; [now left | now right | now apply Hf].
Qed.

Section TopIndices.
Context {np : Numpy}.
Variable scores : list float.
Variable k : Z.

Lemma top_indices_in_range i :
  In i (top_indices scores k) -> i < length scores.
Proof.
  unfold top_indices. intros H. apply in_rev in H.
  destruct (slice_last_suffix k (argsort scores)) as [pre E].
  assert (Hi : In i (argsort scores))
    by (rewrite E; apply in_or_app; now right).
  apply (Permutation_in _ (argsort_perm scores)) in Hi.
  apply in_seq in Hi. lia.
Qed.

Lemma top_indices_NoDup : NoDup (top_indices scores k).
Proof.
  unfold top_indices. apply NoDup_rev.
  destruct (slice_last_suffix k (argsort scores)) as [pre E].
  assert (N : NoDup (argsort scores)).
  { apply (Permutation_NoDup (Permutation_sym (argsort_perm scores))).
    apply seq_NoDup. }
  rewrite E in N. now apply NoDup_app_remove_l in N.
Qed.

Lemma top_indices_sorted :
  StronglySorted (fun i j => np_le (nth j scores nan) (nth i scores nan) = true)
                 (top_indices scores k).
Proof.
  unfold top_indices.
  apply (StronglySorted_rev
           (fun i j => np_le (nth i scores nan) (nth j scores nan) = true)).
  destruct (slice_last_suffix k (argsort scores)) as [pre E].
  pose proof (argsort_sorted scores) as H. rewrite E in H.
  now apply StronglySorted_app_inv in H.
Qed.

(** An index left out scores no higher than any index taken. *)
Lemma top_indices_highest i j :
  j < length scores ->
  ~ In j (top_indices scores k) -> In i (top_indices scores k) ->
  np_le (nth j scores nan) (nth i scores nan) = true.
Proof.
  unfold top_indices. intros Hj Hn Hi. apply in_rev in Hi.
  destruct (slice_last_suffix k (argsort scores)) as [pre E].
  pose proof (argsort_sorted scores) as H. rewrite E in H.
  apply StronglySorted_app_inv in H as [_ H]. apply H; [|exact Hi].
  assert (Hin : In j (argsort scores)).
  { apply (Permutation_in _ (Permutation_sym (argsort_perm scores))).
    apply in_seq. lia. }
  rewrite E in Hin. apply in_app_or in Hin as [Hin|Hin]; [exact Hin|].
  exfalso. apply Hn. now apply -> in_rev.
Qed.

Lemma top_indices_length :
  (1 <= k)%Z ->
  length (top_indices scores k) = Nat.min (Z.to_nat k) (length scores).
Proof.
  intros Hk. unfold top_indices.
  rewrite length_rev, slice_last_length by exact Hk.
  now rewrite (Permutation_length (argsort_perm scores)), length_seq.
Qed.

End TopIndices.

(** * Lexical search *)

Section BM25Facts.
Context {np : Numpy} {lib : RankBM25}.

(** [build_index] step by step: the documents and their tokens are stored
    before the scorer is built, so they stay when the constructor raises,
    and the index is then the one of an earlier call, if any. *)
Lemma bm25_build_index_run docs o tr :
  BM25Search.build_index docs (World o tr) =
  match BM25Okapi (tokenize docs) with
  | inr b =>
      (inr tt,
       World (BM25Search.Obj docs (Some b) (tokenize docs))
             ((tr ++ [Call_BM25Okapi (tokenize docs)]) ++ [Printed (length docs)]))
  | inl e =>
      (inl e,
       World (BM25Search.Obj docs (BM25Search.bm25 o) (tokenize docs))
             (tr ++ [Call_BM25Okapi (tokenize docs)]))
  end.
Proof.
  unfold BM25Search.build_index, bind, read, write, emit, lift, tokenize.
  simpl. destruct (BM25Okapi _); reflexivity.
Qed.

Lemma bm25_built docs o tr w :
  BM25Search.build_index docs (World o tr) = (inr tt, w) ->
  exists b, BM25Okapi (tokenize docs) = inr b /\
            self w = BM25Search.Obj docs (Some b) (tokenize docs).
Proof.
  rewrite bm25_build_index_run.
  destruct (BM25Okapi (tokenize docs)) as [e|b] eqn:E; [discriminate|].
  intros [= <-]. now exists b.
Qed.

Lemma bm25_search_run o b query k tr :
  BM25Search.bm25 o = Some b ->
  BM25Search.search query k (World o tr) =
  (BM25Search.results (BM25Search.documents o)
     (get_scores b (split (lower query)))
     (top_indices (get_scores b (split (lower query))) k),
   World o (tr ++ [Call_get_scores (split (lower query))])).
Proof.
  intros H. unfold BM25Search.search, bind, read, emit, lift. simpl.
  now rewrite H.
Qed.

(** What the comprehension of [search] returns: the indices with a positive
    score, in the order given, each with its document and its score. *)
Lemma bm25_results_spec docs scores idxs rs :
  BM25Search.results docs scores idxs = inr rs ->
  map index rs = filter (fun i => (0 <? nth i scores nan)%float) idxs /\
  Forall (fun r => nth_error docs (index r) = Some (content r) /\
                   nth_error scores (index r) = Some (score r) /\
                   (0 <? score r)%float = true) rs.
Proof.
  revert rs; induction idxs as [|i idxs IH]; intros rs; simpl.
  - intros [= <-]. split; [reflexivity | constructor].
  - unfold getitem.
    destruct (nth_error scores i) as [s|] eqn:Es; [|discriminate].
    rewrite (nth_error_nth _ _ nan Es).
    destruct (0 <? s)%float eqn:Ep; [|apply IH].
    destruct (nth_error docs i) as [d|] eqn:Ed; [|discriminate].
    destruct (BM25Search.results docs scores idxs) as [e|rs']; [discriminate|].
    intros [= <-]. destruct (IH _ eq_refl) as [Hm Hf]. split.
    + simpl. now rewrite Hm.
    + constructor; [now repeat split | exact Hf].
Qed.

Lemma bm25_results_total docs scores idxs :
  length scores = length docs ->
  Forall (fun i => i < length scores) idxs ->
  exists rs, BM25Search.results docs scores idxs = inr rs.
Proof.
  intros Hl. induction 1 as [|i idxs Hi _ [rs IH]]; simpl.
  - now eexists.
  - unfold getitem.
    destruct (nth_error scores i) as [s|] eqn:Es;
      [|apply nth_error_None in Es; lia].
    destruct (nth_error docs i) as [d|] eqn:Ed;
      [|apply nth_error_None in Ed; lia].
    rewrite IH. destruct (0 <? s)%float; now eexists.
Qed.

End BM25Facts.

(** * Semantic search *)

Section SemanticFacts.
Context {np : Numpy}.

Lemma embed_all_run embed docs : forall d e tr,
  SemanticSearch.embed_all docs (World (SemanticSearch.Obj d e (Some embed)) tr) =
  (inr tt,
   World (SemanticSearch.Obj d (e ++ map embed docs) (Some embed))
         (tr ++ map Call_embed_query docs)).
Proof.
  induction docs as [|doc docs IH]; intros d e tr.
  - simpl. unfold ret. now rewrite !app_nil_r.
  - cbn [SemanticSearch.embed_all].
    unfold bind at 1. unfold SemanticSearch.embed_query, bind, read, emit, ret.
    simpl. unfold bind, read, write. simpl. rewrite IH.
    now rewrite <- !app_assoc.
Qed.

Lemma semantic_build_index_run embed docs d e tr :
  SemanticSearch.build_index docs (World (SemanticSearch.Obj d e (Some embed)) tr) =
  match np_array (map embed docs) with
  | inr rows =>
      (inr tt,
       World (SemanticSearch.Obj docs rows (Some embed))
             ((tr ++ map Call_embed_query docs) ++ [Printed (length docs)]))
  | inl err =>
      (inl err,
       World (SemanticSearch.Obj docs (map embed docs) (Some embed))
             (tr ++ map Call_embed_query docs))
  end.
Proof.
  unfold SemanticSearch.build_index.
  unfold bind at 1. unfold read at 1. simpl.
  unfold bind at 1. unfold write at 1. simpl.
  unfold bind at 1. unfold read at 1. simpl.
  unfold bind at 1. unfold write at 1. simpl.
  unfold bind at 1. rewrite embed_all_run. simpl.
  unfold bind, read, lift, write, emit. simpl.
  destruct (np_array (map embed docs)); reflexivity.
Qed.

Lemma np_array_uniform {A} (embed : A -> list float) n docs :
  (forall s, length (embed s) = n) ->
  np_array (map embed docs) = inr (map embed docs).
Proof.
  intros H. unfold np_array. destruct docs as [|doc docs]; [reflexivity|].
  simpl. replace (forallb _ _) with true; [reflexivity|].
  symmetry. apply forallb_forall. intros r Hr.
  apply in_map_iff in Hr as (s & <- & _). rewrite !H. apply Nat.eqb_refl.
Qed.

Lemma semantic_search_run o embed query k tr :
  SemanticSearch.embeddings o <> [] ->
  SemanticSearch.embedding_model o = Some embed ->
  SemanticSearch.search query k (World o tr) =
  (match SemanticSearch.similarities (embed query) (SemanticSearch.embeddings o) with
   | inl e => inl e
   | inr sims =>
       SemanticSearch.results (SemanticSearch.documents o) sims (top_indices sims k)
   end,
   World o (tr ++ [Call_embed_query query])).
Proof.
  intros He Hm.
  assert (Hz : (length (SemanticSearch.embeddings o) =? 0) = false).
  { destruct (SemanticSearch.embeddings o); [congruence | reflexivity]. }
  unfold SemanticSearch.search, SemanticSearch.embed_query.
  unfold bind, read, emit, ret, lift, raise. cbn [self trace].
  rewrite Hz. cbv beta iota. cbn [self trace]. rewrite Hm.
  cbv beta iota. cbn [self trace].
  destruct (SemanticSearch.similarities _ _); reflexivity.
Qed.

Lemma semantic_results_spec docs sims idxs rs :
  SemanticSearch.results docs sims idxs = inr rs ->
  map index rs = idxs /\
  Forall (fun r => nth_error docs (index r) = Some (content r) /\
                   nth_error sims (index r) = Some (score r)) rs.
Proof.
  revert rs; induction idxs as [|i idxs IH]; intros rs; simpl.
  - intros [= <-]. split; [reflexivity | constructor].
  - unfold getitem.
    destruct (nth_error docs i) as [d|] eqn:Ed; [|discriminate].
    destruct (nth_error sims i) as [s|] eqn:Es; [|discriminate].
    destruct (SemanticSearch.results docs sims idxs) as [e|rs']; [discriminate|].
    intros [= <-]. destruct (IH _ eq_refl) as [Hm Hf]. split.
    + simpl. now rewrite Hm.
    + constructor; [now split | exact Hf].
Qed.

Lemma semantic_results_total docs sims idxs :
  length sims = length docs ->
  Forall (fun i => i < length sims) idxs ->
  exists rs, SemanticSearch.results docs sims idxs = inr rs.
Proof.
  intros Hl. induction 1 as [|i idxs Hi _ [rs IH]]; simpl.
  - now eexists.
  - unfold getitem.
    destruct (nth_error docs i) as [d|] eqn:Ed;
      [|apply nth_error_None in Ed; lia].
    destruct (nth_error sims i) as [s|] eqn:Es;
      [|apply nth_error_None in Es; lia].
    rewrite IH. now eexists.
Qed.

Lemma similarities_length q rows sims :
  SemanticSearch.similarities q rows = inr sims -> length sims = length rows.
Proof.
  revert sims; induction rows as [|r rows IH]; intros sims; simpl.
  - now intros [= <-].
  - destruct (SemanticSearch.similarity q r); [discriminate|].
    destruct (SemanticSearch.similarities q rows); [discriminate|].
    intros [= <-]. simpl. now rewrite (IH _ eq_refl).
Qed.

Lemma similarities_total q rows :
  Forall (fun r => length r = length q) rows ->
  exists sims, SemanticSearch.similarities q rows = inr sims.
Proof.
  induction 1 as [|r rows Hr _ [sims IH]]; simpl; [now eexists|].
  unfold SemanticSearch.similarity, np_dot.
  rewrite Hr, Nat.eqb_refl, IH. now eexists.
Qed.

End SemanticFacts.

(** * The search claims *)

(** C1: after [build_index docs], every result of every later [search] of
    either class carries in [content] the document at position [index] of
    [docs]. *)
Theorem index_positionally_stable :
  (forall (np : Numpy) (lib : RankBM25) docs o tr w1 query k tr' rs w2,
      BM25Search.build_index docs (World o tr) = (inr tt, w1) ->
      BM25Search.search query k (World (self w1) tr') = (inr rs, w2) ->
      Forall (fun r => nth_error docs (index r) = Some (content r)) rs) /\
  (forall (np : Numpy) docs o tr w1 query k tr' rs w2,
      SemanticSearch.build_index docs (World o tr) = (inr tt, w1) ->
      SemanticSearch.search query k (World (self w1) tr') = (inr rs, w2) ->
      Forall (fun r => nth_error docs (index r) = Some (content r)) rs).
Proof.
  split.
  - intros np lib docs o tr w1 query k tr' rs w2 Hb Hs.
    apply bm25_built in Hb as (b & _ & Hw). rewrite Hw in Hs.
    rewrite (bm25_search_run _ b) in Hs by reflexivity.
    injection Hs as Hs _. apply bm25_results_spec in Hs as [_ Hs].
    revert Hs. apply Forall_impl. now intros r (H & _).
  - intros np docs [d e [embed|]] tr w1 query k tr' rs w2 Hb Hs;
      [|discriminate Hb].
    rewrite semantic_build_index_run in Hb.
    destruct (np_array (map embed docs)) as [err|rows] eqn:Ea; [discriminate|].
    injection Hb as <-. cbn [self] in Hs.
    destruct rows as [|row rows]; [discriminate Hs|].
    rewrite (semantic_search_run _ embed) in Hs by (discriminate || reflexivity).
    cbn [SemanticSearch.embeddings SemanticSearch.documents] in Hs.
    destruct (SemanticSearch.similarities (embed query) (row :: rows))
      as [err|sims]; [discriminate Hs|].
    injection Hs as Hs _.
    apply semantic_results_spec in Hs as [_ Hs].
    revert Hs. apply Forall_impl. now intros r (H & _).
Qed.

Lemma index_positionally_stable_witness :
  (let w1 := snd (BM25Search.build_index (lib := overlap_scorer) docs3
                    (World BM25Search.init [])) in
   let rs := [Result (lit "e f") 1 2; Result (lit "a b") 1 0] in
   fst (BM25Search.build_index (lib := overlap_scorer) docs3
          (World BM25Search.init [])) = inr tt /\
   fst (BM25Search.search (np := stable_numpy) (lit "e A") 2
          (World (self w1) [])) = inr rs /\
   Forall (fun r => nth_error docs3 (index r) = Some (content r)) rs) /\
  (let w1 := snd (SemanticSearch.build_index docs_axes
                    (World (SemanticSearch.init (Some axis_embed)) [])) in
   exists s0,
   let rs := [Result (lit "+x") s0 0; Result (lit "z") 0 2] in
   fst (SemanticSearch.build_index docs_axes
          (World (SemanticSearch.init (Some axis_embed)) [])) = inr tt /\
   fst (SemanticSearch.search (np := stable_numpy) (lit "+q") 2
          (World (self w1) [])) = inr rs /\
   Forall (fun r => nth_error docs_axes (index r) = Some (content r)) rs).
Proof.
  destruct index_positionally_stable as [Hl Hs]. split.
  - split; [vm_compute; reflexivity|]. split; [vm_compute; reflexivity|].
    apply (Hl stable_numpy overlap_scorer docs3 BM25Search.init []
              (snd (BM25Search.build_index (lib := overlap_scorer) docs3
                      (World BM25Search.init [])))
              (lit "e A") 2%Z []
              [Result (lit "e f") 1 2; Result (lit "a b") 1 0]
              (snd (BM25Search.search (np := stable_numpy) (lit "e A") 2
                      (World (self (snd (BM25Search.build_index
                                           (lib := overlap_scorer) docs3
                                           (World BM25Search.init [])))) []))));
      vm_compute; reflexivity.
  - eexists. split; [vm_compute; reflexivity|]. split; [vm_compute; reflexivity|].
    apply (Hs stable_numpy docs_axes (SemanticSearch.init (Some axis_embed)) []
              (snd (SemanticSearch.build_index docs_axes
                      (World (SemanticSearch.init (Some axis_embed)) [])))
              (lit "+q") 2%Z [] _
              (snd (SemanticSearch.search (np := stable_numpy) (lit "+q") 2
                      (World (self (snd (SemanticSearch.build_index docs_axes
                                           (World (SemanticSearch.init
                                                     (Some axis_embed)) [])))) []))));
      vm_compute; reflexivity.
Defined.

(** C2: [search] on a freshly constructed object of either class raises the
    "not built" error ([ValueError] with that message), whatever the query
    and [k]; the trace of external calls is left as it was, so neither the
    scorer nor the embedding model has been called. *)
Theorem search_before_build_index_raises :
  (forall (np : Numpy) (lib : RankBM25) query k tr,
      BM25Search.search query k (World BM25Search.init tr)
      = (inl not_built, World BM25Search.init tr)) /\
  (forall (np : Numpy) embedding_model query k tr,
      SemanticSearch.search query k
        (World (SemanticSearch.init embedding_model) tr)
      = (inl not_built, World (SemanticSearch.init embedding_model) tr)).
Proof. split; intros; reflexivity. Qed.

(** C10: [SemanticSearch.build_index []] succeeds once an embedding model
    is set, and every later [search] raises the "not built" error: the
    check looks at the number of stored embeddings, which is zero. *)
Theorem semantic_empty_index_reads_unbuilt
  (np : Numpy) (embed : str -> list float)
  (docs0 : list str) (embeddings0 : list (list float)) (tr : list event) :
  exists w,
    SemanticSearch.build_index []
      (World (SemanticSearch.Obj docs0 embeddings0 (Some embed)) tr)
    = (inr tt, w) /\
    SemanticSearch.embeddings (self w) = [] /\
    forall query k tr',
      SemanticSearch.search query k (World (self w) tr')
      = (inl not_built, World (self w) tr').
Proof.
  rewrite semantic_build_index_run. simpl.
  eexists. split; [reflexivity|]. split; reflexivity.
Qed.

Section BM25Claims.
Context {np : Numpy} {lib : RankBM25}.

(** After a successful [build_index], [search] returns: no index is out of
    range. *)
Lemma bm25_search_returns docs o tr w1 query k tr' :
  BM25Search.build_index docs (World o tr) = (inr tt, w1) ->
  exists b rs,
    BM25Search.bm25 (self w1) = Some b /\
    BM25Search.search query k (World (self w1) tr')
    = (inr rs, World (self w1) (tr' ++ [Call_get_scores (split (lower query))])) /\
    BM25Search.results docs (get_scores b (split (lower query)))
      (top_indices (get_scores b (split (lower query))) k) = inr rs.
Proof.
  intros Hb. apply bm25_built in Hb as (b & Hc & Hw). rewrite Hw.
  pose proof (get_scores_length _ _ (split (lower query)) Hc) as Hl.
  unfold tokenize in Hl. rewrite length_map in Hl.
  destruct (bm25_results_total docs (get_scores b (split (lower query)))
              (top_indices (get_scores b (split (lower query))) k) Hl)
    as [rs Hr].
  { apply Forall_forall. intros i. apply top_indices_in_range. }
  exists b, rs. split; [reflexivity|].
  rewrite (bm25_search_run _ b) by reflexivity. cbn [BM25Search.documents].
  now rewrite Hr.
Qed.

(** X1: after a successful [build_index] lexical search returns; its
    results have positive scores, in non-increasing order, never more than
    there are documents, and at most [k] of them when [k] is at least
    one. *)
Theorem bm25_search_positive_sorted_bounded docs o tr w1 query k tr' :
  BM25Search.build_index docs (World o tr) = (inr tt, w1) ->
  exists rs w2,
    BM25Search.search query k (World (self w1) tr') = (inr rs, w2) /\
    Forall (fun r => (0 <? score r)%float = true) rs /\
    StronglySorted (fun r r' => (score r' <=? score r)%float = true) rs /\
    length rs <= length docs /\
    ((1 <= k)%Z -> length rs <= Z.to_nat k).
Proof.
  intros Hb.
  destruct (bm25_search_returns docs o tr w1 query k tr' Hb)
    as (b & rs & Hbm & Hs & Hr).
  apply bm25_built in Hb as (b' & Hc & Hw).
  rewrite Hw in Hbm. injection Hbm as ->.
  pose proof (get_scores_length _ _ (split (lower query)) Hc) as Hl.
  unfold tokenize in Hl. rewrite length_map in Hl.
  set (scores := get_scores b (split (lower query))) in *.
  apply bm25_results_spec in Hr as [Hm Hf].
  exists rs. eexists. split; [exact Hs|].
  assert (Hlen : length rs <= length (top_indices scores k)).
  { rewrite <- (length_map index rs), Hm. apply filter_length_le. }
  split; [|split; [|split]].
  - revert Hf. apply Forall_impl. now intros r (_ & _ & H).
  - pose proof (top_indices_sorted scores k) as Hsorted.
    apply (StronglySorted_filter _ (fun i => (0 <? nth i scores nan)%float))
      in Hsorted.
    rewrite <- Hm in Hsorted. apply StronglySorted_map_inv in Hsorted.
    revert Hsorted. apply StronglySorted_impl_in.
    intros r r' Hin Hin' H. rewrite Forall_forall in Hf.
    destruct (Hf _ Hin) as (_ & Hn & Hp). destruct (Hf _ Hin') as (_ & Hn' & _).
    rewrite (nth_error_nth _ _ nan Hn), (nth_error_nth _ _ nan Hn') in H.
    rewrite np_le_number in H by (now apply (ltb_not_nan 0)). exact H.
  - assert (Hn : NoDup (top_indices scores k)) by apply top_indices_NoDup.
    assert (Hi : incl (top_indices scores k) (seq 0 (length scores))).
    { intros i Hi. apply in_seq. apply top_indices_in_range in Hi. lia. }
    apply (NoDup_incl_length Hn) in Hi. rewrite length_seq in Hi. lia.
  - intros Hk. rewrite (top_indices_length scores k Hk) in Hlen. lia.
Qed.

(** C3 at [k = 0]: the slice [[-k:]] is then the whole array, so every
    document with a positive score is returned, where the claim allows at
    most [k = 0] results. *)
Theorem bm25_search_k_zero_returns_every_positive docs o tr w1 query tr' :
  BM25Search.build_index docs (World o tr) = (inr tt, w1) ->
  exists b rs w2,
    BM25Search.bm25 (self w1) = Some b /\
    BM25Search.search query 0 (World (self w1) tr') = (inr rs, w2) /\
    Permutation (map index rs)
      (filter (fun i => (0 <? nth i (get_scores b (split (lower query))) nan)%float)
              (seq 0 (length docs))).
Proof.
  intros Hb.
  destruct (bm25_search_returns docs o tr w1 query 0 tr' Hb)
    as (b & rs & Hbm & Hs & Hr).
  exists b, rs. eexists. split; [exact Hbm|]. split; [exact Hs|].
  apply bm25_built in Hb as (b' & Hc & Hw).
  rewrite Hw in Hbm. injection Hbm as ->.
  pose proof (get_scores_length _ _ (split (lower query)) Hc) as Hl.
  unfold tokenize in Hl. rewrite length_map in Hl.
  apply bm25_results_spec in Hr as [-> _].
  unfold top_indices. rewrite slice_last_zero, <- Hl.
  set (scores := get_scores b (split (lower query))).
  assert (P : Permutation (rev (argsort scores)) (seq 0 (length scores))).
  { rewrite <- (argsort_perm scores). symmetry. apply Permutation_rev. }
  clear -P. induction P; simpl.
  - constructor.
  - destruct (0 <? nth x scores nan)%float; [now constructor | assumption].
  - destruct (0 <? nth x scores nan)%float, (0 <? nth y scores nan)%float;
      first [apply perm_swap | now constructor | reflexivity].
  - etransitivity; eassumption.
Qed.

End BM25Claims.

(** Whether [build_index []] returns is the scorer's constructor's doing:
    it does with a scorer that accepts the empty corpus, and raises with
    one that does not. *)
Lemma bm25_empty_corpus_depends_on_scorer :
  fst (BM25Search.build_index (lib := overlap_scorer) []
         (World BM25Search.init [])) = inr tt /\
  fst (BM25Search.build_index (lib := averaging_scorer) []
         (World BM25Search.init []))
  = inl (LibraryError "division by zero").
Proof. split; reflexivity. Qed.

(** Of three documents one holds the query word; with [k = 0] it is
    returned, one result where at most zero were asked for. *)
Lemma bm25_search_k_zero_example :
  let w1 := snd (BM25Search.build_index (lib := overlap_scorer) docs3
                   (World BM25Search.init [])) in
  fst (BM25Search.build_index (lib := overlap_scorer) docs3
         (World BM25Search.init [])) = inr tt /\
  option_map (fun b => get_scores b (split (lower (lit "a"))))
             (BM25Search.bm25 (self w1)) = Some [1; 0; 0]%float /\
  fst (BM25Search.search (np := stable_numpy) (lit "a") 0 (World (self w1) []))
  = inr [Result (lit "a b") 1 0].
Proof. repeat split; vm_compute; reflexivity. Qed.

Lemma bm25_search_k_zero_returns_every_positive_witness :
  let w1 := snd (BM25Search.build_index (lib := overlap_scorer) docs3
                   (World BM25Search.init [])) in
  exists b rs w2,
    BM25Search.bm25 (self w1) = Some b /\
    BM25Search.search (np := stable_numpy) (lit "a") 0 (World (self w1) [])
    = (inr rs, w2) /\
    Permutation (map index rs)
      (filter (fun i => (0 <? nth i (get_scores b (split (lower (lit "a")))) nan)%float)
              (seq 0 (length docs3))).
Proof.
  intros w1.
  apply (bm25_search_k_zero_returns_every_positive
           (np := stable_numpy) (lib := overlap_scorer)
           docs3 BM25Search.init [] w1 (lit "a") []).
  vm_compute. reflexivity.
Defined.

Lemma bm25_search_positive_sorted_bounded_witness :
  let w1 := snd (BM25Search.build_index (lib := overlap_scorer) docs3
                   (World BM25Search.init [])) in
  exists rs w2,
    BM25Search.search (np := stable_numpy) (lib := overlap_scorer) (lit "a e") 1
      (World (self w1) []) = (inr rs, w2) /\
    Forall (fun r => (0 <? score r)%float = true) rs /\
    StronglySorted (fun r r' => (score r' <=? score r)%float = true) rs /\
    length rs <= length docs3 /\
    ((1 <= 1)%Z -> length rs <= Z.to_nat 1).
Proof.
  intros w1.
  apply (bm25_search_positive_sorted_bounded
           (np := stable_numpy) (lib := overlap_scorer)
           docs3 BM25Search.init [] w1 (lit "a e") 1 []).
  vm_compute. reflexivity.
Defined.

Section SemanticClaims.
Context {np : Numpy}.

(** C4, as the code has it: on a corpus of [n >= 1] documents and for
    [k >= 1], semantic search returns exactly [min k n] results, without
    any filter on the sign of the score; they are distinct documents, in
    non-increasing order of similarity, and no document left out is more
    similar than one returned.  The order is the one numpy sorts by, in
    which NaN counts as the largest value. *)
Theorem semantic_search_top_k
  (embed : str -> list float) (dim : nat)
  (docs0 : list str) (embeddings0 : list (list float))
  (docs : list str) (query : str) (k : Z) (tr tr' : list event) :
  (forall text, length (embed text) = dim) ->
  docs <> [] ->
  (1 <= k)%Z ->
  exists w1 sims rs,
    SemanticSearch.build_index docs
      (World (SemanticSearch.Obj docs0 embeddings0 (Some embed)) tr)
    = (inr tt, w1) /\
    SemanticSearch.similarities (embed query) (map embed docs) = inr sims /\
    SemanticSearch.search query k (World (self w1) tr')
    = (inr rs, World (self w1) (tr' ++ [Call_embed_query query])) /\
    length rs = Nat.min (Z.to_nat k) (length docs) /\
    Forall (fun r => nth_error docs (index r) = Some (content r) /\
                     nth_error sims (index r) = Some (score r)) rs /\
    NoDup (map index rs) /\
    StronglySorted (fun r r' => np_le (score r') (score r) = true) rs /\
    (forall j r, j < length docs -> ~ In j (map index rs) -> In r rs ->
                 np_le (nth j sims nan) (score r) = true).
Proof.
  intros Hdim Hdocs Hk.
  rewrite semantic_build_index_run, (np_array_uniform embed dim) by exact Hdim.
  destruct (similarities_total (embed query) (map embed docs)) as [sims Hsims].
  { apply Forall_forall. intros r Hr.
    apply in_map_iff in Hr as (s & <- & _). now rewrite !Hdim. }
  pose proof (similarities_length _ _ _ Hsims) as Hlen.
  rewrite length_map in Hlen.
  destruct (semantic_results_total docs sims (top_indices sims k) Hlen) as [rs Hrs].
  { apply Forall_forall. intros i. apply top_indices_in_range. }
  destruct (semantic_results_spec _ _ _ _ Hrs) as [Hm Hf].
  eexists. exists sims, rs. split; [reflexivity|]. split; [exact Hsims|].
  cbn [self]. split.
  - rewrite (semantic_search_run _ embed); try reflexivity.
    + cbn [SemanticSearch.embeddings SemanticSearch.documents].
      now rewrite Hsims, Hrs.
    + cbn [SemanticSearch.embeddings]. destruct docs; [congruence | discriminate].
  - split; [|split; [exact Hf|split; [|split]]].
    + rewrite <- (length_map index rs), Hm, <- Hlen.
      now apply top_indices_length.
    + rewrite Hm. apply top_indices_NoDup.
    + pose proof (top_indices_sorted sims k) as Hs. rewrite <- Hm in Hs.
      apply StronglySorted_map_inv in Hs. revert Hs.
      apply StronglySorted_impl_in. intros r r' Hr Hr' H.
      rewrite Forall_forall in Hf.
      destruct (Hf _ Hr) as [_ Hn]. destruct (Hf _ Hr') as [_ Hn'].
      now rewrite (nth_error_nth _ _ nan Hn), (nth_error_nth _ _ nan Hn') in H.
    + intros j r Hj Hnot Hr. rewrite Forall_forall in Hf.
      destruct (Hf _ Hr) as [_ Hn].
      rewrite <- (nth_error_nth _ _ nan Hn).
      apply (top_indices_highest sims k); [lia | now rewrite <- Hm |].
      rewrite <- Hm. now apply in_map.
Qed.

End SemanticClaims.

(** A run of the theorem in which a negative similarity is returned: of
    three documents two are opposed to the query, and [k = 2] returns one
    of them. *)
Lemma semantic_search_top_k_witness :
  (forall text, length (axis_embed text) = 2) /\
  docs_opposed <> [] /\ (1 <= 2)%Z /\
  (exists w1 sims rs,
    SemanticSearch.build_index docs_opposed
      (World (SemanticSearch.Obj [] [] (Some axis_embed)) [])
    = (inr tt, w1) /\
    SemanticSearch.similarities (axis_embed (lit "-q")) (map axis_embed docs_opposed)
    = inr sims /\
    SemanticSearch.search (np := stable_numpy) (lit "-q") 2 (World (self w1) [])
    = (inr rs, World (self w1) ([] ++ [Call_embed_query (lit "-q")])) /\
    length rs = Nat.min (Z.to_nat 2) (length docs_opposed) /\
    Forall (fun r => nth_error docs_opposed (index r) = Some (content r) /\
                     nth_error sims (index r) = Some (score r)) rs /\
    NoDup (map index rs) /\
    StronglySorted (fun r r' => np_le (score r') (score r) = true) rs /\
    (forall j r, j < length docs_opposed -> ~ In j (map index rs) -> In r rs ->
                 np_le (nth j sims nan) (score r) = true)) /\
  map (fun r => (index r, (score r <? 0)%float))
      (match fst (SemanticSearch.search (np := stable_numpy) (lit "-q") 2
                    (World (self (snd (SemanticSearch.build_index docs_opposed
                       (World (SemanticSearch.Obj [] [] (Some axis_embed)) []))))
                           []))
       with inr rs => rs | inl _ => [] end)
  = [(1, false); (2, true)].
Proof.
  assert (Hdim : forall text, length (axis_embed text) = 2).
  { intros [|c text]; [reflexivity|]. unfold axis_embed.
    destruct (Ascii.eqb_spec c "+") as [->|]; [reflexivity|].
    destruct (Ascii.eqb_spec c "-") as [->|]; [reflexivity|].
    destruct (Ascii.eqb_spec c "0") as [->|]; [reflexivity|].
    destruct c as [[] [] [] [] [] [] [] []]; reflexivity. }
  split; [exact Hdim|]. split; [discriminate|]. split; [lia|]. split.
  - apply (semantic_search_top_k (np := stable_numpy) axis_embed 2 [] []
             docs_opposed (lit "-q") 2 [] []); [exact Hdim | discriminate | lia].
  - vm_compute. reflexivity.
Defined.

(** C4 as the spec words it fails on the empty corpus, where [search]
    raises instead of returning [min k 0 = 0] results, and at [k = 0],
    where all three documents are returned, not [min 0 3 = 0]. *)
Lemma semantic_search_count_counterexample :
  fst (SemanticSearch.search (np := stable_numpy) (lit "q") 3
         (World (self (snd (SemanticSearch.build_index []
                   (World (SemanticSearch.init (Some axis_embed)) [])))) []))
  = inl not_built /\
  option_map (map index)
    (match fst (SemanticSearch.search (np := stable_numpy) (lit "+q") 0
                  (World (self (snd (SemanticSearch.build_index docs_axes
                     (World (SemanticSearch.init (Some axis_embed)) [])))) []))
     with inr rs => Some rs | inl _ => None end)
  = Some [0; 2; 1].
Proof. split; vm_compute; reflexivity. Qed.

(** * Cosine similarity: exact bounds, and floating-point overflow *)

Section ExactCosine.
Local Open Scope R_scope.

Lemma dot_acc l : forall acc,
  fold_left (fun acc xy => acc + fst xy * snd xy) l acc
  = acc + fold_left (fun acc xy => acc + fst xy * snd xy) l 0.
Proof.
  induction l as [|[x y] l IH]; intros acc; simpl.
  - lra.
  - rewrite IH, (IH (0 + x * y)). lra.
Qed.

Lemma dot_cons x a y b : Exact.dot (x :: a) (y :: b) = x * y + Exact.dot a b.
Proof.
  unfold Exact.dot. simpl. rewrite dot_acc. lra.
Qed.

Lemma dot_self_nonneg a : 0 <= Exact.dot a a.
Proof.
  induction a as [|x a IH]; [unfold Exact.dot; simpl; lra|].
  rewrite dot_cons. nra.
Qed.

Lemma cauchy_schwarz_step x y A B C :
  0 <= A -> 0 <= B -> C * C <= A * B ->
  (x * y + C) * (x * y + C) <= (x * x + A) * (y * y + B).
Proof.
  intros HA HB HC.
  assert (H : 2 * (x * y * C) <= x * x * B + y * y * A).
  { destruct (Req_dec A 0) as [HA0|HA0].
    - subst A. pose proof (Rle_0_sqr C) as H0. unfold Rsqr in H0.
      assert (HC0 : C * C = 0) by lra.
      apply Rmult_integral in HC0. assert (C = 0) by tauto. subst C.
      pose proof (Rle_0_sqr x) as Hx. unfold Rsqr in Hx.
      pose proof (Rmult_le_pos _ _ Hx HB). lra.
    - assert (HA1 : 0 < A) by lra.
      apply (Rmult_le_reg_l A); [assumption|].
      pose proof (Rle_0_sqr (x * C - y * A)) as H1. unfold Rsqr in H1.
      pose proof (Rle_0_sqr x) as Hx. unfold Rsqr in Hx.
      assert (H2 : 0 <= x * x * (A * B - C * C))
        by (apply Rmult_le_pos; lra).
      lra. }
  lra.
Qed.

Lemma cauchy_schwarz a : forall b,
  length a = length b ->
  Exact.dot a b * Exact.dot a b <= Exact.dot a a * Exact.dot b b.
Proof.
  induction a as [|x a IH]; intros [|y b] Hl; try discriminate.
  - unfold Exact.dot. simpl. lra.
  - injection Hl as Hl. rewrite !dot_cons.
    apply cauchy_schwarz_step; auto using dot_self_nonneg.
Qed.

Lemma abs_dot_le_norms a b :
  length a = length b -> Rabs (Exact.dot a b) <= Exact.norm a * Exact.norm b.
Proof.
  intros Hl. pose proof (cauchy_schwarz a b Hl) as H.
  unfold Exact.norm.
  pose proof (dot_self_nonneg a) as HA. pose proof (dot_self_nonneg b) as HB.
  rewrite <- sqrt_mult by assumption.
  rewrite <- (sqrt_Rsqr_abs (Exact.dot a b)).
  apply sqrt_le_1_alt. unfold Rsqr. exact H.
Qed.

End ExactCosine.

Lemma zero_dot n :
  np_dot (repeat 0%float n) (repeat 0%float n) = inr 0%float.
Proof.
  unfold np_dot. rewrite Nat.eqb_refl. f_equal.
  induction n as [|n IH]; [reflexivity|]. simpl.
  change (0 + 0 * 0)%float with 0%float. exact IH.
Qed.

Lemma zero_dot_self n : dot_self (repeat 0%float n) = 0%float.
Proof.
  unfold dot_self. induction n as [|n IH]; [reflexivity|]. simpl.
  change (0 + 0 * 0)%float with 0%float. exact IH.
Qed.




(** * More on the chunker *)

Lemma forallb_rev {A} (f : A -> bool) l : forallb f (rev l) = forallb f l.
Proof.
  induction l as [|a l IH]; [reflexivity|]. simpl.
  rewrite forallb_app, IH. simpl. now rewrite andb_true_r, andb_comm.
Qed.

(** What [rstrip] removes is whitespace. *)
Lemma rstrip_decomp_space b :
  exists w, b = rstrip b ++ w /\ forallb isspace w = true.
Proof.
  unfold rstrip. exists (rev (takewhile isspace (rev b))). split.
  - rewrite <- rev_app_distr, takewhile_dropwhile. now rewrite rev_involutive.
  - rewrite forallb_rev. apply takewhile_all.
Qed.

Lemma chunk_unsplit_header max_chunk_size text c :
  unsplit max_chunk_size text = true ->
  In c (chunk max_chunk_size text) ->
  exists ws name rest,
    c = lit "class" ++ ws ++ name ++ lit "(Base):" ++ rest /\
    ws <> [] /\ forallb isspace ws = true /\
    name <> [] /\ forallb isword name = true.
Proof.
  intros Hu Hin. rewrite (chunk_unsplit _ _ Hu) in Hin.
  apply in_map_iff in Hin as (m & <- & Hm).
  apply findall_In in Hm as (h & b & rest & Hh & -> & _).
  rewrite (strip_Header_app h b Hh).
  destruct Hh as (ws & name & -> & H1 & H2 & H3 & H4).
  exists ws, name, (rstrip b). rewrite <- !app_assoc. auto.
Qed.

(** X3.  When no span is split, every chunk starts with an entity header,
    [class], blanks, a name and [(Base):], and is trimmed. *)
Theorem chunk_starts_with_header max_chunk_size text c :
  unsplit max_chunk_size text = true ->
  In c (chunk max_chunk_size text) ->
  (exists ws name rest,
      c = lit "class" ++ ws ++ name ++ lit "(Base):" ++ rest /\
      ws <> [] /\ forallb isspace ws = true /\
      name <> [] /\ forallb isword name = true) /\
  strip c = c.
Proof.
  intros Hu Hin. split; [now apply (chunk_unsplit_header max_chunk_size text)|].
  rewrite (chunk_unsplit _ _ Hu) in Hin.
  apply in_map_iff in Hin as (m & <- & _). apply strip_idem.
Qed.

Lemma chunk_starts_with_header_witness :
  let text := lines ["import os"; "class A(Base):"; "    x = 1  "; "";
                     "class B(Base):"; "    y = 2"; ""] in
  unsplit None text = true /\
  In (lines ["class B(Base):"; "    y = 2"]) (chunk None text) /\
  strip (lines ["class B(Base):"; "    y = 2"])
  = lines ["class B(Base):"; "    y = 2"].
Proof.
  intros text. split; [reflexivity|].
  assert (Hin : In (lines ["class B(Base):"; "    y = 2"]) (chunk None text))
    by (vm_compute; auto).
  split; [exact Hin|].
  exact (proj2 (chunk_starts_with_header None text _ eq_refl Hin)).
Defined.

(** X4.  When no span is split, a chunk chunked again is that chunk
    alone. *)
Theorem chunk_of_a_chunk max_chunk_size text c :
  unsplit max_chunk_size text = true ->
  In c (chunk max_chunk_size text) ->
  chunk max_chunk_size c = [c].
Proof.
  intros Hu Hin.
  assert (Hf : findall c = [c] /\ strip c = c).
  { rewrite (chunk_unsplit _ _ Hu) in Hin.
    apply in_map_iff in Hin as (m & <- & Hm).
    apply findall_In in Hm as (h & b & rest & Hh & -> & Hb).
    split; [|apply strip_idem].
    rewrite (strip_Header_app h b Hh).
    rewrite <- (app_nil_r (h ++ rstrip b)) at 1. rewrite <- app_assoc.
    rewrite findall_eq.
    rewrite (CLASS_PATTERN_intro h (rstrip b) [] Hh)
      by (apply (trimmed_body_minimal b rest); auto).
    now rewrite findall_nil. }
  destruct Hf as [Hf Hs].
  assert (Hu' : unsplit max_chunk_size c = true).
  { destruct max_chunk_size as [m|]; [|reflexivity].
    unfold unsplit in *. destruct (m =? 0)%Z; [reflexivity|]. simpl in *.
    rewrite Hf. simpl. rewrite Hs, andb_true_r.
    rewrite (chunk_unsplit (Some m) text) in Hin
      by (unfold unsplit; destruct (m =? 0)%Z; simpl; auto).
    apply in_map_iff in Hin as (s & <- & Hin).
    rewrite forallb_forall in Hu. now apply Hu. }
  rewrite (chunk_unsplit _ _ Hu'), Hf. simpl. now rewrite Hs.
Qed.

Lemma chunk_of_a_chunk_witness :
  let text := lines ["import os"; "class A(Base):"; "    x = 1  "; "";
                     "class B(Base):"; "    y = 2"; ""] in
  unsplit (Some 40%Z) text = true /\
  In (lines ["class A(Base):"; "    x = 1"]) (chunk (Some 40%Z) text) /\
  chunk (Some 40%Z) (lines ["class A(Base):"; "    x = 1"])
  = [lines ["class A(Base):"; "    x = 1"]].
Proof.
  intros text. split; [reflexivity|].
  assert (Hin : In (lines ["class A(Base):"; "    x = 1"])
                   (chunk (Some 40%Z) text)) by (vm_compute; auto).
  split; [exact Hin|].
  exact (chunk_of_a_chunk (Some 40%Z) text _ eq_refl Hin).
Defined.

Lemma weave_gap a g gs cs : weave ((a ++ g) :: gs) cs = a ++ weave (g :: gs) cs.
Proof. destruct cs; simpl; now rewrite <- ?app_assoc. Qed.

(** The chunks lie in the text in order; apart from what precedes the first
    header, only whitespace lies between and after them. *)
Lemma findall_weave text :
  exists g0 gs,
    length gs = length (findall text) /\
    weave (g0 :: gs) (map strip (findall text)) = text /\
    Forall (fun g => forallb isspace g = true) gs /\
    (forall x, class_header text = Some x -> g0 = []).
Proof.
  remember (length text) as k eqn:Hk. revert text Hk.
  induction k as [k IH] using lt_wf_ind. intros text ->.
  rewrite findall_eq.
  destruct (CLASS_PATTERN text) as [[m rest]|] eqn:E.
  - apply CLASS_PATTERN_spec in E as (h & b & Hh & -> & -> & Hb).
    pose proof (lazy_body_spec _ _ _ Hb) as (_ & Hla & _).
    destruct (rstrip_decomp_space b) as (w & Hw & Hws).
    rewrite (map_cons strip), (strip_Header_app h b Hh).
    destruct rest as [|c rest].
    + rewrite findall_nil. exists [], [w]. repeat split; auto.
      simpl. rewrite <- app_assoc, <- Hw. now rewrite app_nil_r.
    + simpl in Hla.
      destruct (Ascii.eqb_spec c newline) as [->|]; [|discriminate].
      destruct (class_header rest) as [x|] eqn:Hx; [|discriminate].
      rewrite findall_newline.
      assert (Hlen : length rest < length (h ++ b ++ newline :: rest))
        by (rewrite !length_app; simpl; lia).
      destruct (IH _ Hlen rest eq_refl) as (g0 & gs & Hl & Hwv & Hf & Hg0).
      rewrite (Hg0 x Hx) in Hwv.
      exists [], ((w ++ [newline]) :: gs). repeat split.
      * simpl. now rewrite Hl.
      * pose proof (weave_gap (w ++ [newline]) [] gs
                      (map strip (findall rest))) as Hgap.
        rewrite app_nil_r in Hgap.
        assert (Hgap' : weave ((w ++ [newline]) :: gs)
                          (map strip (findall rest))
                        = (w ++ [newline]) ++ rest)
          by (etransitivity; [exact Hgap | f_equal; exact Hwv]).
        clear Hgap.
        change (weave ([] :: (w ++ [newline]) :: gs)
                  ((h ++ rstrip b) :: map strip (findall rest)))
          with ([] ++ (h ++ rstrip b)
                ++ weave ((w ++ [newline]) :: gs) (map strip (findall rest))).
        rewrite Hgap'. rewrite <- !app_assoc. cbn [app].
        rewrite (app_assoc (rstrip b) w), <- Hw. reflexivity.
      * constructor; [|exact Hf].
        rewrite forallb_app, Hws. reflexivity.
  - assert (Hc : class_header text = None).
    { unfold CLASS_PATTERN in E. destruct (class_header text); [|reflexivity].
      destruct (lazy_body s); discriminate. }
    destruct text as [|c text].
    + exists [], []. repeat split; auto.
    + destruct (IH (length text) (Nat.lt_succ_diag_r _) text eq_refl)
        as (g0 & gs & Hl & Hwv & Hf & _).
      exists (c :: g0), gs. repeat split; auto.
      * destruct (map strip (findall text)); simpl in *; now rewrite Hwv.
      * intros x Hx. congruence.
Qed.

(** X5.  Chunking without a size limit keeps the text in place: the text
    is the chunks in order with dropped pieces in between, and every
    dropped piece but the first, which is what precedes the first header,
    is whitespace. *)
Theorem chunks_lie_in_text text :
  exists gaps,
    length gaps = S (length (chunk None text)) /\
    weave gaps (chunk None text) = text /\
    Forall (fun g => forallb isspace g = true) (tl gaps).
Proof.
  destruct (findall_weave text) as (g0 & gs & Hl & Hw & Hf & _).
  exists (g0 :: gs). rewrite chunk_none. repeat split; auto.
  simpl. now rewrite length_map, Hl.
Qed.

(** X6.  Whatever the size limit, every chunk begins with the word
    [class]. *)
Theorem every_chunk_begins_with_class max_chunk_size text c :
  In c (chunk max_chunk_size text) -> exists t, c = lit "class" ++ t.
Proof.
  unfold chunk. intros Hin.
  apply in_flat_map in Hin as (m & Hm & Hc).
  apply findall_In in Hm as (h & b & rest & Hh & -> & _).
  assert (Hs : exists t, strip (h ++ b) = lit "class" ++ t).
  { rewrite (strip_Header_app h b Hh).
    destruct Hh as (ws & name & -> & _). rewrite <- !app_assoc. eauto. }
  destruct Hs as [t Hs]. unfold chunk_block in Hc. rewrite Hs in Hc.
  assert (Hsplit : forall m, In c (_split_large_block m (lit "class" ++ t)) ->
                             exists t', c = lit "class" ++ t').
  { intros m Hin. rewrite split_large_block_groups in Hin.
    apply in_map_iff in Hin as (g & <- & Hg).
    pose proof (groups_headers m (hd [] (re_split (lit "class" ++ t)))
                  [hd [] (re_split (lit "class" ++ t))]
                  (tl (re_split (lit "class" ++ t))) eq_refl) as Hf.
    rewrite Forall_forall in Hf.
    destruct (join_starts [newline] g _ (Hf g Hg)) as [t' ->].
    change (lit "class" ++ t)
      with ("c"%char :: "l"%char :: "a"%char :: "s"%char :: "s"%char :: t).
    rewrite !re_split_head_cons by discriminate.
    eexists. reflexivity. }
  destruct max_chunk_size as [m|].
  - destruct (_ && _); [now apply (Hsplit m)|].
    destruct Hc as [<-|[]]. eauto.
  - destruct Hc as [<-|[]]. eauto.
Qed.

Lemma every_chunk_begins_with_class_witness :
  let text := lines ["class"; "    A(Base):"; "    x = 1"; "    y = 2"] in
  chunk (Some 12%Z) text
  = [lit "class"; lines ["class"; "A(Base):"]; lines ["class"; "x = 1"];
     lines ["class"; "y = 2"]] /\
  exists t, lines ["class"; "x = 1"] = lit "class" ++ t.
Proof.
  intros text. split; [reflexivity|].
  apply (every_chunk_begins_with_class (Some 12%Z) text).
  vm_compute. auto.
Defined.

Lemma groups_count m header running members :
  1 <= length (groups m header running members) <= S (length members).
Proof.
  revert running; induction members as [|p ps IH]; intros running; simpl.
  - lia.
  - destruct (_ >? _)%Z.
    + simpl. specialize (IH [header; p]). lia.
    + specialize (IH (running ++ [p])). lia.
Qed.

(** X7.  [_split_large_block] returns one sub-chunk at least, and at most
    as many as [re.split] finds parts in the block. *)
Theorem split_large_block_count max_chunk_size block :
  1 <= length (_split_large_block max_chunk_size block)
    <= length (re_split block).
Proof.
  rewrite split_large_block_groups, length_map.
  pose proof (groups_count max_chunk_size (hd [] (re_split block))
                [hd [] (re_split block)] (tl (re_split block))) as H.
  pose proof (re_split_from_nonempty (S (length block)) block) as Hn.
  fold (re_split block) in Hn.
  destruct (re_split block); [congruence|]. simpl in *. lia.
Qed.

(** X8.  A size limit that no trimmed span exceeds changes nothing: the
    chunks are those of the chunker without a limit. *)
Theorem chunk_limit_spares_small_spans max_chunk_size text :
  unsplit max_chunk_size text = true ->
  chunk max_chunk_size text = chunk None text.
Proof.
  intros H. now rewrite (chunk_unsplit _ _ H), chunk_none.
Qed.

Lemma chunk_limit_spares_small_spans_witness :
  let text := lines ["import os"; "class A(Base):"; "    x = 1  "; "";
                     "class B(Base):"; "    y = 2"; ""] in
  unsplit (Some 24%Z) text = true /\
  chunk (Some 24%Z) text = chunk None text.
Proof.
  intros text. split; [reflexivity|].
  apply (chunk_limit_spares_small_spans (Some 24%Z) text). reflexivity.
Defined.

(** * Documents from a schema file *)

Lemma takewhile_stop f a c t :
  forallb f a = true -> f c = false -> takewhile f (a ++ c :: t) = a.
Proof.
  intros Ha Hc. induction a as [|d a IH]; simpl in *.
  - now rewrite Hc.
  - apply andb_prop in Ha as [-> Ha]. now rewrite IH.
Qed.

Lemma re_search_class_name_eq s :
  re_search_class_name s =
  match class_name_at s with
  | Some name => Some name
  | None => match s with
            | [] => None
            | _ :: rest => re_search_class_name rest
            end
  end.
Proof. destruct s; reflexivity. Qed.

(** On a text that starts with a header the name search finds the name of
    that header. *)
Lemma class_name_at_header ws name rest :
  ws <> [] -> forallb isspace ws = true ->
  name <> [] -> forallb isword name = true ->
  re_search_class_name (lit "class" ++ ws ++ name ++ lit "(Base):" ++ rest)
  = Some name.
Proof.
  intros Hws Aws Hn An.
  assert (E : class_name_at (lit "class" ++ ws ++ name ++ lit "(Base):" ++ rest)
              = Some name).
  { unfold class_name_at, and_then.
    assert (E1 : forall t, literal (lit "class") (lit "class" ++ t) = Some t)
      by (intros t; now apply literal_spec).
    rewrite E1.
    destruct name as [|c name]; [congruence|].
    simpl in An. apply andb_prop in An as [Hc An].
    rewrite <- app_comm_cons.
    rewrite (plus_app isspace ws c) by (auto using isword_not_space).
    change (c :: name ++ lit "(Base):" ++ rest)
      with ((c :: name) ++ "("%char :: lit "Base):" ++ rest).
    rewrite (plus_app isword (c :: name) "("%char);
      [| discriminate | simpl; now rewrite Hc | reflexivity].
    assert (E2 : literal (lit "(Base):") ("("%char :: lit "Base):" ++ rest)
                 = Some rest) by (now apply literal_spec).
    rewrite E2. f_equal. apply takewhile_stop; [|reflexivity].
    simpl. now rewrite Hc. }
  now rewrite re_search_class_name_eq, E.
Qed.

(** X9.  The documents of a schema text are its chunks, in order; when no
    span is split (as with the default chunker), every document starts
    with an entity header and carries that header's class name as
    [table_name] and the file path as [source]. *)
Theorem documents_carry_their_class_name file_path chunker code_text :
  let max_chunk_size :=
    match chunker with None => None | Some m => m end in
  map page_content (get_documents_from_file file_path chunker code_text)
  = chunk max_chunk_size code_text /\
  (unsplit max_chunk_size code_text = true ->
   Forall (fun d => exists ws name rest,
               page_content d
               = lit "class" ++ ws ++ name ++ lit "(Base):" ++ rest /\
               ws <> [] /\ forallb isspace ws = true /\
               name <> [] /\ forallb isword name = true /\
               metadata d = [(lit "table_name", name); (lit "source", file_path)])
          (get_documents_from_file file_path chunker code_text)).
Proof.
  intros mx. unfold get_documents_from_file. fold mx. split.
  - rewrite map_map. simpl. apply map_id.
  - intros Hu. apply Forall_forall. intros d Hd.
    apply in_map_iff in Hd as (c & <- & Hc).
    destruct (chunk_unsplit_header mx code_text c Hu Hc)
      as (ws & name & rest & -> & H1 & H2 & H3 & H4).
    exists ws, name, rest. cbn [page_content metadata].
    repeat split; auto.
    unfold extract_table_name.
    now rewrite (class_name_at_header ws name rest).
Qed.

Lemma documents_carry_their_class_name_witness :
  let text := lines ["import os"; "class Facility(Base):"; "    x = 1  "; "";
                     "class Resident(Base):"; "    y = 2"; ""] in
  unsplit None text = true /\
  get_documents_from_file (lit "schema.py") None text
  = [Doc (lines ["class Facility(Base):"; "    x = 1"])
         [(lit "table_name", lit "Facility"); (lit "source", lit "schema.py")];
     Doc (lines ["class Resident(Base):"; "    y = 2"])
         [(lit "table_name", lit "Resident"); (lit "source", lit "schema.py")]] /\
  Forall (fun d => exists ws name rest,
              page_content d
              = lit "class" ++ ws ++ name ++ lit "(Base):" ++ rest /\
              ws <> [] /\ forallb isspace ws = true /\
              name <> [] /\ forallb isword name = true /\
              metadata d = [(lit "table_name", name);
                            (lit "source", lit "schema.py")])
         (get_documents_from_file (lit "schema.py") None text).
Proof.
  intros text. split; [reflexivity|]. split; [reflexivity|].
  apply (proj2 (documents_carry_their_class_name (lit "schema.py") None text)).
  reflexivity.
Defined.

(** * More on the search classes *)

Lemma np_array_rows rows rows' : np_array rows = inr rows' -> rows' = rows.
Proof.
  unfold np_array. destruct rows as [|r rs]; [now intros [= <-]|].
  destruct (forallb _ rs); [now intros [= <-] | discriminate].
Qed.

(** X10.  [SemanticSearch.build_index] is a full rebuild: whatever the
    object held, a call that returns leaves the documents given, their
    embeddings in the same order, and has called the embedding model once
    per document, in order, before printing; with a model whose vectors
    have one length the call does return. *)
Theorem semantic_build_index_embeds_in_order
  (embed : str -> list float) (docs0 : list str)
  (embeddings0 : list (list float)) (docs : list str) (tr : list event) :
  (forall w,
      SemanticSearch.build_index docs
        (World (SemanticSearch.Obj docs0 embeddings0 (Some embed)) tr)
      = (inr tt, w) ->
      w = World (SemanticSearch.Obj docs (map embed docs) (Some embed))
                ((tr ++ map Call_embed_query docs) ++ [Printed (length docs)])) /\
  (forall dim,
      (forall text, length (embed text) = dim) ->
      fst (SemanticSearch.build_index docs
             (World (SemanticSearch.Obj docs0 embeddings0 (Some embed)) tr))
      = inr tt).
Proof.
  split.
  - intros w. rewrite semantic_build_index_run.
    destruct (np_array (map embed docs)) as [e|rows] eqn:E; [discriminate|].
    apply np_array_rows in E as ->. now intros [= <-].
  - intros dim Hdim.
    now rewrite semantic_build_index_run, (np_array_uniform embed dim).
Qed.

Lemma semantic_build_index_embeds_in_order_witness :
  (forall text, length (huge_embed text) = 1) /\
  SemanticSearch.build_index [lit "b"; lit "a"]
    (World (SemanticSearch.Obj [lit "old"] [[1%float; 2%float]] (Some huge_embed)) [])
  = (inr tt,
     World (SemanticSearch.Obj [lit "b"; lit "a"]
              (map huge_embed [lit "b"; lit "a"]) (Some huge_embed))
           (([] ++ map Call_embed_query [lit "b"; lit "a"]) ++ [Printed 2])).
Proof.
  split; [reflexivity|].
  destruct (semantic_build_index_embeds_in_order huge_embed [lit "old"]
              [[1%float; 2%float]] [lit "b"; lit "a"] []) as [H1 H2].
  specialize (H2 1 (fun _ => eq_refl)).
  destruct (SemanticSearch.build_index _ _) as [r w] eqn:E.
  simpl in H2. subst r. now rewrite (H1 w eq_refl).
Defined.

(** X11.  Without an embedding model [build_index] raises the
    configuration error before it touches the object or calls anything,
    and the object stays unbuilt. *)
Theorem semantic_build_index_without_model
  (np : Numpy) (docs0 : list str) (embeddings0 : list (list float))
  (docs : list str) (tr : list event) :
  SemanticSearch.build_index docs
    (World (SemanticSearch.Obj docs0 embeddings0 None) tr)
  = (inl (ValueError "Embedding model not provided in __init__"),
     World (SemanticSearch.Obj docs0 embeddings0 None) tr) /\
  forall query k tr',
    fst (SemanticSearch.search query k
           (snd (SemanticSearch.build_index docs
                   (World (SemanticSearch.init None) tr'))))
    = inl not_built.
Proof. split; intros; reflexivity. Qed.

(** X12.  [search] only reads: whatever it returns or raises, the object
    is as before, and the trace grows by the one call made, to
    [get_scores] or to the embedding model for the query, or not at all
    when the index is not built. *)
Theorem search_only_reads :
  (forall (np : Numpy) (lib : RankBM25) o query k tr,
      snd (BM25Search.search query k (World o tr))
      = World o (tr ++ match BM25Search.bm25 o with
                       | Some _ => [Call_get_scores (split (lower query))]
                       | None => []
                       end)) /\
  (forall (np : Numpy) o query k tr,
      snd (SemanticSearch.search query k (World o tr))
      = World o (tr ++ if length (SemanticSearch.embeddings o) =? 0 then []
                       else match SemanticSearch.embedding_model o with
                            | Some _ => [Call_embed_query query]
                            | None => []
                            end)).
Proof.
  split.
  - intros np lib o query k tr.
    destruct (BM25Search.bm25 o) as [b|] eqn:E.
    + now rewrite (bm25_search_run o b).
    + unfold BM25Search.search, bind, read, raise. simpl.
      rewrite E. simpl. now rewrite app_nil_r.
  - intros np [docs [|row rows] [embed|]] query k tr.
    + unfold SemanticSearch.search, bind, read, raise. simpl.
      now rewrite app_nil_r.
    + unfold SemanticSearch.search, bind, read, raise. simpl.
      now rewrite app_nil_r.
    + now rewrite (semantic_search_run _ embed).
    + unfold SemanticSearch.search, SemanticSearch.embed_query.
      unfold bind, read, raise. simpl. now rewrite app_nil_r.
Qed.

Section FailedBuild.
Context {np : Numpy} {lib : RankBM25}.

(** X13.  When the scorer's constructor raises, [BM25Search.build_index]
    raises the same exception after storing the new documents, and keeps
    the scorer it had: a later search scores with the old index and reads
    the new documents, or raises "not built" if there was none. *)
Theorem bm25_failed_build_keeps_old_index docs o tr e :
  BM25Okapi (tokenize docs) = inl e ->
  exists w,
    BM25Search.build_index docs (World o tr) = (inl e, w) /\
    BM25Search.documents (self w) = docs /\
    BM25Search.bm25 (self w) = BM25Search.bm25 o /\
    trace w = tr ++ [Call_BM25Okapi (tokenize docs)] /\
    forall query k tr',
      fst (BM25Search.search query k (World (self w) tr'))
      = match BM25Search.bm25 o with
        | None => inl not_built
        | Some b =>
            BM25Search.results docs (get_scores b (split (lower query)))
              (top_indices (get_scores b (split (lower query))) k)
        end.
Proof.
  intros He. rewrite bm25_build_index_run, He.
  eexists. split; [reflexivity|]. cbn [self trace]. repeat split.
  intros query k tr'.
  destruct (BM25Search.bm25 o) as [b|] eqn:E.
  - now rewrite (bm25_search_run _ b).
  - reflexivity.
Qed.

End FailedBuild.

(** A rebuild on the empty corpus that fails leaves an index of three
    documents with no document: the search raises [IndexError]. *)
Lemma bm25_failed_build_keeps_old_index_witness :
  let w1 := snd (BM25Search.build_index (lib := averaging_scorer) docs3
                   (World BM25Search.init [])) in
  BM25Okapi (RankBM25 := averaging_scorer) (tokenize [])
  = inl (LibraryError "division by zero") /\
  (exists w,
    BM25Search.build_index (lib := averaging_scorer) [] (World (self w1) [])
    = (inl (LibraryError "division by zero"), w) /\
    BM25Search.documents (self w) = [] /\
    BM25Search.bm25 (self w) = BM25Search.bm25 (self w1) /\
    trace w = [] ++ [Call_BM25Okapi (tokenize [])] /\
    forall query k tr',
      fst (BM25Search.search (np := stable_numpy) query k (World (self w) tr'))
      = match BM25Search.bm25 (self w1) with
        | None => inl not_built
        | Some b =>
            BM25Search.results [] (get_scores b (split (lower query)))
              (top_indices (get_scores b (split (lower query))) k)
        end) /\
  fst (BM25Search.search (np := stable_numpy) (lit "a") 2
         (World (self (snd (BM25Search.build_index (lib := averaging_scorer) []
                              (World (self w1) [])))) []))
  = inl IndexError.
Proof.
  intros w1. split; [reflexivity|]. split.
  - apply (bm25_failed_build_keeps_old_index (np := stable_numpy)
             (lib := averaging_scorer) [] (self w1) []). reflexivity.
  - vm_compute. reflexivity.
Defined.

(** * Which documents a search returns *)

Lemma positive_upward a b :
  (0 <? a)%float = true -> (a <=? b)%float = true -> (0 <? b)%float = true.
Proof.
  rewrite !ltb_spec, leb_spec.
  change (Prim2SF 0) with (S754_zero false).
  destruct (Prim2SF a) as [[]|[]| |[] m e], (Prim2SF b) as [[]|[]| |[] m' e'];
    unfold SFltb, SFleb; simpl; congruence.
Qed.

Lemma filter_shorter {A} (f : A -> bool) l :
  length (filter f l) < length l -> exists a, In a l /\ f a = false.
Proof.
  induction l as [|a l IH]; simpl; [lia|].
  destruct (f a) eqn:E.
  - simpl. intros H. destruct IH as (b & Hb & Hf); [lia|].
    exists b. split; [now right | exact Hf].
  - intros _. exists a. split; [now left | exact E].
Qed.

Section TopOfAll.
Context {np : Numpy}.

(** An index in range that is not taken shows that fewer than all were
    taken. *)
Lemma top_indices_left_out scores k j :
  j < length scores -> ~ In j (top_indices scores k) ->
  length (top_indices scores k) < length scores.
Proof.
  intros Hj Hn.
  assert (Hl : length (j :: top_indices scores k) <= length (argsort scores)).
  { apply NoDup_incl_length.
    - constructor; [exact Hn | apply top_indices_NoDup].
    - intros i [<-|Hi].
      + apply (Permutation_in _ (Permutation_sym (argsort_perm scores))).
        apply in_seq. lia.
      + unfold top_indices in Hi. apply in_rev in Hi.
        destruct (slice_last_suffix k (argsort scores)) as [pre E].
        rewrite E. apply in_or_app. now right. }
  rewrite (Permutation_length (argsort_perm scores)), length_seq in Hl.
  simpl in Hl. lia.
Qed.

Lemma slice_last_length_nonpos {A} k (a : list A) :
  (k <= 0)%Z -> length (slice_last k a) = length a - Z.to_nat (- k).
Proof.
  intros Hk. unfold slice_last. rewrite length_skipn.
  replace (- k <? 0)%Z with false by lia. lia.
Qed.

Lemma top_indices_length_nonpos scores k :
  (k <= 0)%Z ->
  length (top_indices scores k) = length scores - Z.to_nat (- k).
Proof.
  intros Hk. unfold top_indices.
  rewrite length_rev, slice_last_length_nonpos by exact Hk.
  now rewrite (Permutation_length (argsort_perm scores)), length_seq.
Qed.

Context {lib : RankBM25}.

(** X14.  Which documents [BM25Search.search] returns: no document twice;
    a document with a positive score that is left out scores no higher
    than any returned one; and, when no score is NaN and fewer than
    [k >= 1] results come back, every document with a positive score is
    among them. *)
Theorem bm25_search_best_positive docs o tr w1 query k tr' :
  BM25Search.build_index docs (World o tr) = (inr tt, w1) ->
  exists b rs w2,
    BM25Search.bm25 (self w1) = Some b /\
    BM25Search.search query k (World (self w1) tr') = (inr rs, w2) /\
    NoDup (map index rs) /\
    (forall j r,
        j < length docs ->
        (0 <? nth j (get_scores b (split (lower query))) nan)%float = true ->
        ~ In j (map index rs) -> In r rs ->
        np_le (nth j (get_scores b (split (lower query))) nan) (score r) = true) /\
    (Forall (fun s => is_nan s = false) (get_scores b (split (lower query))) ->
     (1 <= k)%Z -> length rs < Z.to_nat k ->
     forall j,
       j < length docs ->
       (0 <? nth j (get_scores b (split (lower query))) nan)%float = true ->
       In j (map index rs)).
Proof.
  intros Hb.
  destruct (bm25_search_returns docs o tr w1 query k tr' Hb)
    as (b & rs & Hbm & Hs & Hr).
  apply bm25_built in Hb as (b' & Hc & Hw).
  assert (b' = b) by (rewrite Hw in Hbm; simpl in Hbm; congruence). subst b'.
  pose proof (get_scores_length _ _ (split (lower query)) Hc) as Hl.
  unfold tokenize in Hl. rewrite length_map in Hl.
  set (scores := get_scores b (split (lower query))) in *.
  destruct (bm25_results_spec _ _ _ _ Hr) as [Hm Hf].
  assert (Hout : forall j, (0 <? nth j scores nan)%float = true ->
                           ~ In j (map index rs) -> ~ In j (top_indices scores k)).
  { intros j Hp Hn Hin. apply Hn. rewrite Hm. apply filter_In. now split. }
  exists b, rs. eexists. split; [exact Hbm|]. split; [exact Hs|].
  split; [|split].
  - rewrite Hm. apply NoDup_filter, top_indices_NoDup.
  - intros j r Hj Hp Hn Hin.
    rewrite Forall_forall in Hf. destruct (Hf _ Hin) as (_ & Hsc & _).
    rewrite <- (nth_error_nth _ _ nan Hsc).
    apply (top_indices_highest scores k); [lia | now apply Hout |].
    apply (in_map index) in Hin. rewrite Hm in Hin.
    now apply filter_In in Hin.
  - intros Hnan Hk Hlen j Hj Hp.
    destruct (in_dec Nat.eq_dec j (map index rs)) as [Hin|Hn]; [exact Hin|].
    exfalso. pose proof (Hout j Hp Hn) as Hnot.
    assert (Hlt : length (top_indices scores k) < length scores)
      by (apply (top_indices_left_out scores k j); [lia | exact Hnot]).
    rewrite top_indices_length in Hlt by exact Hk.
    assert (Hshort : length (filter (fun i => (0 <? nth i scores nan)%float)
                               (top_indices scores k))
                     < length (top_indices scores k)).
    { rewrite <- Hm, length_map, top_indices_length by exact Hk. lia. }
    apply filter_shorter in Hshort as (i & Hi & Hneg).
    pose proof (top_indices_highest scores k i j ltac:(lia) Hnot Hi) as Hle.
    rewrite np_le_number in Hle.
    + rewrite (positive_upward _ _ Hp Hle) in Hneg. discriminate.
    + rewrite Forall_forall in Hnan. apply Hnan, nth_In.
      now apply top_indices_in_range in Hi.
Qed.

End TopOfAll.

(** Of three documents one shares a word with the query: asked for two,
    the search returns that one. *)
Lemma bm25_search_best_positive_witness :
  let w1 := snd (BM25Search.build_index (lib := overlap_scorer) docs3
                   (World BM25Search.init [])) in
  (exists b rs w2,
    BM25Search.bm25 (self w1) = Some b /\
    BM25Search.search (np := stable_numpy) (lit "a") 2 (World (self w1) [])
    = (inr rs, w2) /\
    NoDup (map index rs) /\
    (forall j r,
        j < length docs3 ->
        (0 <? nth j (get_scores b (split (lower (lit "a")))) nan)%float = true ->
        ~ In j (map index rs) -> In r rs ->
        np_le (nth j (get_scores b (split (lower (lit "a")))) nan) (score r) = true) /\
    (Forall (fun s => is_nan s = false) (get_scores b (split (lower (lit "a")))) ->
     (1 <= 2)%Z -> length rs < Z.to_nat 2 ->
     forall j,
       j < length docs3 ->
       (0 <? nth j (get_scores b (split (lower (lit "a")))) nan)%float = true ->
       In j (map index rs))) /\
  option_map (fun b => map is_nan (get_scores b (split (lower (lit "a")))))
             (BM25Search.bm25 (self w1)) = Some [false; false; false] /\
  fst (BM25Search.search (np := stable_numpy) (lit "a") 2 (World (self w1) []))
  = inr [Result (lit "a b") 1 0].
Proof.
  intros w1. split; [|split; vm_compute; reflexivity].
  apply (bm25_search_best_positive (np := stable_numpy) (lib := overlap_scorer)
           docs3 BM25Search.init [] w1 (lit "a") 2 []).
  reflexivity.
Defined.

Section SemanticAnyK.
Context {np : Numpy}.

(** X15.  Semantic search with [k <= 0]: the slice [[-k:]] drops the
    first [|k|] of the ascending order, so the search returns all but the
    [|k|] least similar documents, every document when [k = 0], and none
    once [|k|] reaches the size of the corpus; those returned are distinct,
    and none left out is more similar than one returned. *)
Theorem semantic_search_nonpositive_k
  (embed : str -> list float) (dim : nat)
  (docs0 : list str) (embeddings0 : list (list float))
  (docs : list str) (query : str) (k : Z) (tr tr' : list event) :
  (forall text, length (embed text) = dim) ->
  docs <> [] ->
  (k <= 0)%Z ->
  exists w1 sims rs,
    SemanticSearch.build_index docs
      (World (SemanticSearch.Obj docs0 embeddings0 (Some embed)) tr)
    = (inr tt, w1) /\
    SemanticSearch.similarities (embed query) (map embed docs) = inr sims /\
    SemanticSearch.search query k (World (self w1) tr')
    = (inr rs, World (self w1) (tr' ++ [Call_embed_query query])) /\
    length rs = length docs - Z.to_nat (- k) /\
    NoDup (map index rs) /\
    (forall j r, j < length docs -> ~ In j (map index rs) -> In r rs ->
                 np_le (nth j sims nan) (score r) = true).
Proof.
  intros Hdim Hdocs Hk.
  rewrite semantic_build_index_run, (np_array_uniform embed dim) by exact Hdim.
  destruct (similarities_total (embed query) (map embed docs)) as [sims Hsims].
  { apply Forall_forall. intros r Hr.
    apply in_map_iff in Hr as (s & <- & _). now rewrite !Hdim. }
  pose proof (similarities_length _ _ _ Hsims) as Hlen.
  rewrite length_map in Hlen.
  destruct (semantic_results_total docs sims (top_indices sims k) Hlen) as [rs Hrs].
  { apply Forall_forall. intros i. apply top_indices_in_range. }
  destruct (semantic_results_spec _ _ _ _ Hrs) as [Hm Hf].
  eexists. exists sims, rs. split; [reflexivity|]. split; [exact Hsims|].
  cbn [self]. split; [|split; [|split]].
  - rewrite (semantic_search_run _ embed); try reflexivity.
    + cbn [SemanticSearch.embeddings SemanticSearch.documents].
      now rewrite Hsims, Hrs.
    + cbn [SemanticSearch.embeddings]. destruct docs; [congruence | discriminate].
  - rewrite <- (length_map index rs), Hm, <- Hlen.
    now apply top_indices_length_nonpos.
  - rewrite Hm. apply top_indices_NoDup.
  - intros j r Hj Hnot Hr. rewrite Forall_forall in Hf.
    destruct (Hf _ Hr) as [_ Hn].
    rewrite <- (nth_error_nth _ _ nan Hn).
    apply (top_indices_highest sims k); [lia | now rewrite <- Hm |].
    rewrite <- Hm. now apply in_map.
Qed.

End SemanticAnyK.

Lemma axis_embed_length text : length (axis_embed text) = 2.
Proof.
  destruct text as [|c text]; [reflexivity|]. unfold axis_embed.
  destruct (Ascii.eqb_spec c "+") as [->|]; [reflexivity|].
  destruct (Ascii.eqb_spec c "-") as [->|]; [reflexivity|].
  destruct (Ascii.eqb_spec c "0") as [->|]; [reflexivity|].
  destruct c as [[] [] [] [] [] [] [] []]; reflexivity.
Qed.

(** With [k = -1] on three documents the two most similar come back. *)
Lemma semantic_search_nonpositive_k_witness :
  (forall text, length (axis_embed text) = 2) /\
  docs_axes <> [] /\ (-1 <= 0)%Z /\
  (exists w1 sims rs,
    SemanticSearch.build_index docs_axes
      (World (SemanticSearch.Obj [] [] (Some axis_embed)) [])
    = (inr tt, w1) /\
    SemanticSearch.similarities (axis_embed (lit "+q")) (map axis_embed docs_axes)
    = inr sims /\
    SemanticSearch.search (np := stable_numpy) (lit "+q") (-1) (World (self w1) [])
    = (inr rs, World (self w1) ([] ++ [Call_embed_query (lit "+q")])) /\
    length rs = length docs_axes - Z.to_nat (- -1) /\
    NoDup (map index rs) /\
    (forall j r, j < length docs_axes -> ~ In j (map index rs) -> In r rs ->
                 np_le (nth j sims nan) (score r) = true)) /\
  option_map (map index)
    (match fst (SemanticSearch.search (np := stable_numpy) (lit "+q") (-1)
                  (World (self (snd (SemanticSearch.build_index docs_axes
                     (World (SemanticSearch.init (Some axis_embed)) [])))) []))
     with inr rs => Some rs | inl _ => None end)
  = Some [0; 2].
Proof.
  split; [exact axis_embed_length|]. split; [discriminate|]. split; [lia|]. split.
  - apply (semantic_search_nonpositive_k (np := stable_numpy) axis_embed 2 [] []
             docs_axes (lit "+q") (-1) [] []);
      [exact axis_embed_length | discriminate | lia].
  - vm_compute. reflexivity.
Defined.

(** * Search over documents *)

Section DocumentSearch.
Context {np : Numpy} {lib : RankBM25}.

Lemma document_build_index_run docs o tr :
  DocumentBM25Search.build_index docs (World o tr) =
  match BM25Okapi (tokenize (map page_content docs)) with
  | inr b =>
      (inr tt,
       World (DocumentBM25Search.Obj docs (Some b) (tokenize (map page_content docs)))
             ((tr ++ [Call_BM25Okapi (tokenize (map page_content docs))])
              ++ [Printed (length docs)]))
  | inl e =>
      (inl e,
       World (DocumentBM25Search.Obj docs (DocumentBM25Search.bm25 o)
                (tokenize (map page_content docs)))
             (tr ++ [Call_BM25Okapi (tokenize (map page_content docs))]))
  end.
Proof.
  unfold DocumentBM25Search.build_index, tokenize, bind, read, write, emit, lift.
  rewrite map_map. simpl.
  destruct (BM25Okapi _); reflexivity.
Qed.

Lemma document_search_run o query k tr :
  DocumentBM25Search.search query k (World o tr) =
  match DocumentBM25Search.bm25 o with
  | None => (inl not_built, World o tr)
  | Some b =>
      (DocumentBM25Search.results (DocumentBM25Search.documents o)
         (get_scores b (split (lower query)))
         (top_indices (get_scores b (split (lower query))) k),
       World o (tr ++ [Call_get_scores (split (lower query))]))
  end.
Proof.
  unfold DocumentBM25Search.search, bind, read, emit, lift, raise. simpl.
  destruct (DocumentBM25Search.bm25 o); reflexivity.
Qed.

(** The loop over documents builds what the comprehension over their
    texts builds, with the metadata added. *)
Lemma document_results_texts docs scores idxs :
  BM25Search.results (map page_content docs) scores idxs =
  match DocumentBM25Search.results docs scores idxs with
  | inl e => inl e
  | inr rs => inr (map (fun r => Result (doc_content r) (doc_score r) (doc_index r)) rs)
  end.
Proof.
  induction idxs as [|i idxs IH]; simpl; [reflexivity|].
  unfold getitem. rewrite nth_error_map.
  destruct (nth_error scores i) as [s|]; [|reflexivity].
  destruct (0 <? s)%float; [|exact IH].
  destruct (nth_error docs i) as [d|]; simpl; [|reflexivity].
  rewrite IH. destruct (DocumentBM25Search.results docs scores idxs); reflexivity.
Qed.

Lemma document_results_spec docs scores idxs rs :
  DocumentBM25Search.results docs scores idxs = inr rs ->
  Forall (fun r => exists d, nth_error docs (doc_index r) = Some d /\
                             doc_content r = page_content d /\
                             doc_metadata r = metadata d) rs.
Proof.
  revert rs; induction idxs as [|i idxs IH]; intros rs; simpl.
  - intros [= <-]. constructor.
  - unfold getitem.
    destruct (nth_error scores i) as [s|]; [|discriminate].
    destruct (0 <? s)%float; [|apply IH].
    destruct (nth_error docs i) as [d|] eqn:Ed; [|discriminate].
    destruct (DocumentBM25Search.results docs scores idxs) as [e|rs'];
      [discriminate|].
    intros [= <-]. constructor; [|now apply IH].
    exists d. now repeat split.
Qed.

(** X16.  The two [BM25Search] classes agree: started with the same
    scorer (none, after [__init__]), building over documents and building
    over their texts end the same way, with the same calls and the same
    scorer, and a search afterwards raises the same exception or returns
    the same contents, scores and indices. *)
Theorem document_search_agrees_with_text_search
  docs (o : DocumentBM25Search.t) (o' : BM25Search.t) tr query k tr' :
  DocumentBM25Search.bm25 o = BM25Search.bm25 o' ->
  let built := DocumentBM25Search.build_index docs (World o tr) in
  let built' := BM25Search.build_index (map page_content docs) (World o' tr) in
  fst built = fst built' /\
  trace (snd built) = trace (snd built') /\
  DocumentBM25Search.bm25 (self (snd built)) = BM25Search.bm25 (self (snd built')) /\
  BM25Search.search query k (World (self (snd built')) tr') =
  match DocumentBM25Search.search query k (World (self (snd built)) tr') with
  | (inl e, w) => (inl e, World (self (snd built')) (trace w))
  | (inr rs, w) =>
      (inr (map (fun r => Result (doc_content r) (doc_score r) (doc_index r)) rs),
       World (self (snd built')) (trace w))
  end.
Proof.
  intros Ho. cbv zeta.
  rewrite document_build_index_run, bm25_build_index_run.
  destruct (BM25Okapi (tokenize (map page_content docs))) as [e|b]; cbn [fst snd self trace].
  - repeat split; try assumption.
    rewrite document_search_run. cbn [DocumentBM25Search.bm25 DocumentBM25Search.documents].
    destruct (DocumentBM25Search.bm25 o) as [b|] eqn:E.
    + rewrite (bm25_search_run _ b) by (simpl; congruence).
      cbn [BM25Search.documents]. rewrite document_results_texts.
      destruct (DocumentBM25Search.results _ _ _); reflexivity.
    + unfold BM25Search.search, bind, read, raise. simpl. now rewrite <- Ho.
  - rewrite length_map. repeat split.
    rewrite document_search_run. cbn [DocumentBM25Search.bm25 DocumentBM25Search.documents].
    rewrite (bm25_search_run _ b) by reflexivity.
    cbn [BM25Search.documents]. rewrite document_results_texts.
    destruct (DocumentBM25Search.results _ _ _); reflexivity.
Qed.

(** X17.  Search over the documents of a schema file: once the index is
    built over [get_documents_from_file], a search returns, and every
    result holds the chunk at its index, the class name found in that
    chunk as [table_name] and the path of the file as [source]. *)
Theorem search_over_file_documents
  file_path chunker code_text o tr w1 query k tr' :
  DocumentBM25Search.build_index
    (get_documents_from_file file_path chunker code_text) (World o tr)
  = (inr tt, w1) ->
  exists rs,
    DocumentBM25Search.search query k (World (self w1) tr')
    = (inr rs, World (self w1) (tr' ++ [Call_get_scores (split (lower query))])) /\
    Forall (fun r =>
              nth_error (SchemaClassChunker.chunk
                           (match chunker with Some m => m | None => None end)
                           code_text)
                        (doc_index r) = Some (doc_content r) /\
              doc_metadata r = [(lit "table_name", extract_table_name (doc_content r));
                                (lit "source", file_path)] /\
              (0 <? doc_score r)%float = true) rs.
Proof.
  rewrite document_build_index_run.
  set (docs := get_documents_from_file file_path chunker code_text).
  destruct (BM25Okapi (tokenize (map page_content docs))) as [e|b] eqn:Hc;
    [discriminate|].
  intros [= <-]. cbn [self]. rewrite document_search_run.
  cbn [DocumentBM25Search.bm25 DocumentBM25Search.documents].
  pose proof (get_scores_length _ _ (split (lower query)) Hc) as Hl.
  unfold tokenize in Hl. rewrite !length_map in Hl.
  set (scores := get_scores b (split (lower query))) in *.
  destruct (bm25_results_total (map page_content docs) scores (top_indices scores k))
    as [rs' Hrs'].
  { now rewrite length_map. }
  { apply Forall_forall. intros i. apply top_indices_in_range. }
  pose proof Hrs' as Hrs. rewrite document_results_texts in Hrs.
  destruct (DocumentBM25Search.results docs scores (top_indices scores k))
    as [e|rs] eqn:Er; [discriminate|].
  injection Hrs as <-.
  exists rs. split; [reflexivity|].
  pose proof (document_results_spec _ _ _ _ Er) as Hd.
  apply bm25_results_spec in Hrs' as [_ Hp].
  rewrite Forall_map in Hp.
  rewrite Forall_forall in *. intros r Hr.
  destruct (Hd r Hr) as (d & Hn & Hcn & Hmd).
  destruct (Hp r Hr) as (_ & _ & Hpos). cbn [score] in Hpos.
  unfold docs, get_documents_from_file in Hn. cbv zeta in Hn.
  rewrite nth_error_map in Hn.
  destruct (nth_error _ (doc_index r)) as [c|] eqn:Ec; [|discriminate].
  injection Hn as <-. cbn [page_content metadata] in *.
  rewrite Hcn, Hmd. now repeat split.
Qed.

End DocumentSearch.

Lemma document_search_agrees_with_text_search_witness :
  let docs := [Doc (lit "a b") [(lit "source", lit "f")]; Doc (lit "c d") []] in
  let built := DocumentBM25Search.build_index (lib := overlap_scorer) docs
                 (World DocumentBM25Search.init []) in
  let built' := BM25Search.build_index (lib := overlap_scorer)
                  (map page_content docs) (World BM25Search.init []) in
  fst built = fst built' /\
  trace (snd built) = trace (snd built') /\
  DocumentBM25Search.bm25 (self (snd built)) = BM25Search.bm25 (self (snd built')) /\
  BM25Search.search (np := stable_numpy) (lit "D") 5 (World (self (snd built')) []) =
  match DocumentBM25Search.search (np := stable_numpy) (lit "D") 5
          (World (self (snd built)) []) with
  | (inl e, w) => (inl e, World (self (snd built')) (trace w))
  | (inr rs, w) =>
      (inr (map (fun r => Result (doc_content r) (doc_score r) (doc_index r)) rs),
       World (self (snd built')) (trace w))
  end.
Proof.
  apply (document_search_agrees_with_text_search (np := stable_numpy)
           (lib := overlap_scorer)
           [Doc (lit "a b") [(lit "source", lit "f")]; Doc (lit "c d") []]
           DocumentBM25Search.init BM25Search.init [] (lit "D") 5 []).
  reflexivity.
Defined.

(** Two classes of a schema file, and a query for a column of the second. *)
Lemma search_over_file_documents_witness :
  let text := lines ["import os"; "class Facility(Base):"; "    x = 1  "; "";
                     "class Resident(Base):"; "    y = 2"; ""] in
  let w1 := snd (DocumentBM25Search.build_index (lib := overlap_scorer)
                   (get_documents_from_file (lit "schema.py") None text)
                   (World DocumentBM25Search.init [])) in
  (exists rs,
    DocumentBM25Search.search (np := stable_numpy) (lit "Y") 5 (World (self w1) [])
    = (inr rs, World (self w1) ([] ++ [Call_get_scores (split (lower (lit "Y")))])) /\
    Forall (fun r =>
              nth_error (SchemaClassChunker.chunk
                           (match @None (option Z) with Some m => m | None => None end)
                           text)
                        (doc_index r) = Some (doc_content r) /\
              doc_metadata r = [(lit "table_name", extract_table_name (doc_content r));
                                (lit "source", lit "schema.py")] /\
              (0 <? doc_score r)%float = true) rs) /\
  fst (DocumentBM25Search.search (np := stable_numpy) (lit "Y") 5 (World (self w1) []))
  = inr [DocResult (lines ["class Resident(Base):"; "    y = 2"]) 1 1
           [(lit "table_name", lit "Resident"); (lit "source", lit "schema.py")]].
Proof.
  intros text w1. split.
  - apply (search_over_file_documents (np := stable_numpy) (lib := overlap_scorer)
             (lit "schema.py") None text DocumentBM25Search.init [] w1 (lit "Y") 5 []).
    vm_compute. reflexivity.
  - vm_compute. reflexivity.
Defined.

(** * Tokens *)

Lemma lower_char_space c :
  isspace (if in_range 65 90 c then ascii_of_nat (nat_of_ascii c + 32) else c)
  = isspace c.
Proof. destruct c as [[] [] [] [] [] [] [] []]; reflexivity. Qed.

Lemma lower_char_idem c :
  let c' := if in_range 65 90 c then ascii_of_nat (nat_of_ascii c + 32) else c in
  (if in_range 65 90 c' then ascii_of_nat (nat_of_ascii c' + 32) else c') = c'.
Proof. destruct c as [[] [] [] [] [] [] [] []]; reflexivity. Qed.

Lemma lower_char_not_upper c :
  in_range 65 90
    (if in_range 65 90 c then ascii_of_nat (nat_of_ascii c + 32) else c) = false.
Proof. destruct c as [[] [] [] [] [] [] [] []]; reflexivity. Qed.

Lemma lower_idem s : lower (lower s) = lower s.
Proof.
  unfold lower. rewrite map_map. apply map_ext. intros c. apply lower_char_idem.
Qed.

Lemma lower_no_upper s : forallb (fun c => negb (in_range 65 90 c)) (lower s) = true.
Proof.
  unfold lower. induction s as [|c s IH]; [reflexivity|]. simpl.
  now rewrite lower_char_not_upper, IH.
Qed.

Lemma lower_dropwhile s : lower (dropwhile isspace s) = dropwhile isspace (lower s).
Proof.
  induction s as [|c s IH]; [reflexivity|]. simpl.
  rewrite lower_char_space. destruct (isspace c); [exact IH | reflexivity].
Qed.

Lemma lower_strip s : lower (strip s) = strip (lower s).
Proof.
  unfold strip, rstrip, lstrip, lower.
  rewrite map_rev. fold (lower (dropwhile isspace (rev (dropwhile isspace s)))).
  rewrite lower_dropwhile. unfold lower at 1. rewrite map_rev.
  fold (lower (dropwhile isspace s)). now rewrite lower_dropwhile.
Qed.

Lemma lower_filter_space s :
  filter (fun c => negb (isspace c)) (lower s)
  = lower (filter (fun c => negb (isspace c)) s).
Proof.
  induction s as [|c s IH]; [reflexivity|].
  change (lower (c :: s))
    with ((if in_range 65 90 c then ascii_of_nat (nat_of_ascii c + 32) else c)
          :: lower s).
  cbn [filter]. rewrite lower_char_space.
  destruct (isspace c); cbn [negb]; [exact IH|].
  change (lower (c :: filter (fun c => negb (isspace c)) s))
    with ((if in_range 65 90 c then ascii_of_nat (nat_of_ascii c + 32) else c)
          :: lower (filter (fun c => negb (isspace c)) s)).
  now rewrite IH.
Qed.

(** The words [split] builds: [cur] is the word being read. *)
Lemma split_from_words cur s :
  forallb (fun c => negb (isspace c)) cur = true ->
  Forall (fun t => t <> [] /\ forallb (fun c => negb (isspace c)) t = true)
         (split_from cur s) /\
  concat (split_from cur s) = cur ++ filter (fun c => negb (isspace c)) s.
Proof.
  revert cur; induction s as [|c s IH]; intros cur Hcur; simpl.
  - destruct cur as [|a cur]; simpl.
    + split; [constructor | reflexivity].
    + split; [|now rewrite !app_nil_r].
      constructor; [split; [discriminate | exact Hcur] | constructor].
  - destruct (isspace c) eqn:Ec; simpl.
    + destruct cur as [|a cur].
      * apply (IH [] eq_refl).
      * destruct (IH [] eq_refl) as [Hf Hc]. split.
        -- constructor; [split; [discriminate | exact Hcur] | exact Hf].
        -- simpl. now rewrite Hc.
    + destruct (IH (cur ++ [c])) as [Hf Hc].
      { rewrite forallb_app, Hcur. simpl. now rewrite Ec. }
      split; [exact Hf|]. now rewrite Hc, <- app_assoc.
Qed.

Lemma split_from_spaces cur ws :
  forallb isspace ws = true ->
  split_from cur ws = split_from cur [].
Proof.
  revert cur; induction ws as [|c ws IH]; intros cur; [reflexivity|]. simpl.
  intros H. apply andb_prop in H as [-> H].
  destruct cur; [now apply IH|]. now rewrite (IH [] H).
Qed.

Lemma split_from_app_spaces cur s ws :
  forallb isspace ws = true ->
  split_from cur (s ++ ws) = split_from cur s.
Proof.
  intros Hws. revert cur; induction s as [|c s IH]; intros cur.
  - now apply split_from_spaces.
  - simpl. destruct (isspace c); [|apply IH].
    destruct cur; [apply IH | now rewrite IH].
Qed.

Lemma split_lstrip s : split (lstrip s) = split s.
Proof.
  unfold split, lstrip. induction s as [|c s IH]; [reflexivity|]. simpl.
  destruct (isspace c) eqn:E; [exact IH|]. simpl. now rewrite E.
Qed.

Lemma split_strip s : split (strip s) = split s.
Proof.
  unfold strip. rewrite <- (split_lstrip s).
  destruct (rstrip_decomp_space (lstrip s)) as (w & Hw & Hs).
  set (t := rstrip (lstrip s)) in *. rewrite Hw.
  unfold split. now rewrite split_from_app_spaces.
Qed.

(** X18.  The tokens a text is indexed and queried by, [s.lower().split()]:
    none is empty, none holds a whitespace character or an upper-case
    ASCII letter, and together they are the lower-cased text with the
    whitespace taken out, in order. *)
Theorem tokens_of_a_text (s : str) :
  Forall (fun t => t <> [] /\
                   forallb (fun c => negb (isspace c)) t = true /\
                   forallb (fun c => negb (in_range 65 90 c)) t = true)
         (split (lower s)) /\
  concat (split (lower s)) = lower (filter (fun c => negb (isspace c)) s).
Proof.
  destruct (split_from_words [] (lower s) eq_refl) as [Hf Hc]. fold (split (lower s)) in *.
  assert (Hup : forallb (fun c => negb (in_range 65 90 c)) (concat (split (lower s))) = true).
  { rewrite Hc. simpl. pose proof (lower_no_upper s) as H.
    rewrite forallb_forall in *. intros c Hin. apply H.
    now apply filter_In in Hin. }
  split.
  - rewrite Forall_forall in *. intros t Ht. destruct (Hf t Ht) as [Hn Hs].
    repeat split; try assumption.
    rewrite forallb_forall in *. intros c Hin. apply Hup.
    apply in_concat. now exists t.
  - rewrite Hc. apply lower_filter_space.
Qed.

(** X19.  BM25 matching ignores letter case and surrounding whitespace,
    in the documents and in the query: lower-casing or stripping the
    documents gives the same token lists to the scorer, and lower-casing
    or stripping the query gives the same search, result and calls
    alike. *)
Theorem bm25_ignores_case_and_margins :
  (forall docs,
      tokenize (map lower docs) = tokenize docs /\
      tokenize (map strip docs) = tokenize docs) /\
  (forall (np : Numpy) (lib : RankBM25) query k w,
      BM25Search.search (lower query) k w = BM25Search.search query k w /\
      BM25Search.search (strip query) k w = BM25Search.search query k w).
Proof.
  split.
  - intros docs. unfold tokenize. rewrite !map_map. split; apply map_ext; intros d.
    + now rewrite lower_idem.
    + now rewrite lower_strip, split_strip.
  - intros np lib query k [o tr].
    destruct (BM25Search.bm25 o) as [b|] eqn:E.
    + rewrite !(bm25_search_run o b) by exact E.
      now rewrite lower_idem, lower_strip, split_strip.
    + unfold BM25Search.search, bind, read, raise. simpl. now rewrite E.
Qed.

(** * The limit and the size of the sub-chunks *)

Section Limit.
Variable m : Z.
Variable header : str.

(** With a header longer than the limit no member ever fits. *)
Lemma groups_header_too_long rest members :
  (m < len header)%Z ->
  groups m header (header :: rest) members
  = (header :: rest) :: map (fun part => [header; part]) members.
Proof.
  intros Hm. revert rest; induction members as [|p ps IH]; intros rest;
    cbn [groups map].
  - reflexivity.
  - assert (E : (total_len (header :: rest) + len p >? m)%Z = true).
    { change (total_len (header :: rest)) with (len header + total_len rest)%Z.
      pose proof (total_len_nonneg rest). rewrite Z.gtb_ltb. apply Z.ltb_lt.
      unfold len in *. lia. }
    rewrite E. f_equal. apply (IH [p]).
Qed.

(** When every member fits beside the header, no group outgrows the
    limit. *)
Lemma groups_within_limit running members :
  (total_len running <= m)%Z ->
  Forall (fun part => (len header + len part <= m)%Z) members ->
  Forall (fun g => (total_len g <= m)%Z) (groups m header running members).
Proof.
  intros Hr Hf. revert running Hr.
  induction Hf as [|p ps Hp _ IH]; intros running Hr; simpl.
  - now constructor.
  - destruct (total_len running + len p >? m)%Z eqn:E.
    + constructor; [exact Hr|]. apply IH.
      unfold total_len. simpl. lia.
    + apply IH. rewrite total_len_app. unfold total_len at 2. simpl.
      rewrite Z.gtb_ltb in E. apply Z.ltb_ge in E. lia.
Qed.

Lemma groups_nonempty running members :
  running <> [] -> Forall (fun g => g <> []) (groups m header running members).
Proof.
  revert running; induction members as [|p ps IH]; intros running Hr; simpl.
  - now constructor.
  - destruct (_ >? _)%Z.
    + constructor; [exact Hr | apply IH; discriminate].
    + apply IH. destruct running; [congruence | discriminate].
Qed.

End Limit.

Lemma split_large_block_below_header m block :
  (m < len (hd [] (re_split block)))%Z ->
  _split_large_block m block
  = hd [] (re_split block)
    :: map (fun part => hd [] (re_split block) ++ newline :: part)
           (tl (re_split block)).
Proof.
  intros Hm. rewrite split_large_block_groups.
  rewrite (groups_header_too_long m _ [] _ Hm). simpl. f_equal.
  rewrite map_map. reflexivity.
Qed.

(** X20.  A limit below the length of the header (the text before the
    first member boundary) makes [_split_large_block] emit the bare header
    as a sub-chunk of its own, and then one sub-chunk per member, the
    header and that member. *)
Theorem limit_below_header m block :
  (m < len (hd [] (re_split block)))%Z ->
  _split_large_block m block
  = hd [] (re_split block)
    :: map (fun part => hd [] (re_split block) ++ newline :: part)
           (tl (re_split block)).
Proof. apply split_large_block_below_header. Qed.

Lemma limit_below_header_witness :
  let block := lines ["class A(Base):"; "    x = 1"; "    y = 2"] in
  (5 < len (hd [] (re_split block)))%Z /\
  hd [] (re_split block) = lit "class A(Base):" /\
  tl (re_split block) = [lit "x = 1"; lit "y = 2"] /\
  _split_large_block 5 block
  = hd [] (re_split block)
    :: map (fun part => hd [] (re_split block) ++ newline :: part)
           (tl (re_split block)).
Proof.
  intros block. split; [reflexivity|]. split; [reflexivity|].
  split; [reflexivity|].
  apply (limit_below_header 5 block). reflexivity.
Defined.

(** X21.  A negative [max_chunk_size] is truthy and below every length:
    [chunk] splits every class, into its bare header and one chunk per
    member. *)
Theorem chunk_negative_limit m text :
  (m < 0)%Z ->
  chunk (Some m) text
  = flat_map (fun span =>
                hd [] (re_split (strip span))
                :: map (fun part => hd [] (re_split (strip span)) ++ newline :: part)
                       (tl (re_split (strip span))))
             (findall text).
Proof.
  intros Hm. unfold chunk. apply flat_map_ext. intros span.
  unfold chunk_block, truthy.
  replace (m =? 0)%Z with false by lia.
  replace (len (strip span) >? m)%Z with true
    by (symmetry; rewrite Z.gtb_ltb; apply Z.ltb_lt; unfold len; lia).
  simpl. apply split_large_block_below_header. unfold len. lia.
Qed.

Lemma chunk_negative_limit_witness :
  let text := lines ["class A(Base):"; "    x = 1"; "    y = 2"; "";
                     "class B(Base):"; "    pass"] in
  (-1 < 0)%Z /\
  chunk (Some (-1)%Z) text
  = flat_map (fun span =>
                hd [] (re_split (strip span))
                :: map (fun part => hd [] (re_split (strip span)) ++ newline :: part)
                       (tl (re_split (strip span))))
             (findall text) /\
  chunk (Some (-1)%Z) text
  = [lit "class A(Base):";
     lines ["class A(Base):"; "x = 1"];
     lines ["class A(Base):"; "y = 2"];
     lit "class B(Base):";
     lines ["class B(Base):"; "pass"]].
Proof.
  intros text. split; [lia|]. split.
  - apply (chunk_negative_limit (-1) text). lia.
  - vm_compute. reflexivity.
Defined.

(** X22.  When the header fits the limit and so does every member beside
    the header, the limit holds for every sub-chunk as the code measures
    it, by the lengths of its parts; the sub-chunk itself is longer by its
    line breaks, one less than its number of parts. *)
Theorem sub_chunks_within_limit m block :
  (len (hd [] (re_split block)) <= m)%Z ->
  Forall (fun part => (len (hd [] (re_split block)) + len part <= m)%Z)
         (tl (re_split block)) ->
  exists gs,
    _split_large_block m block = map (join [newline]) gs /\
    concat (map (@tl str) gs) = tl (re_split block) /\
    Forall (fun g => (total_len g <= m)%Z /\
                     len (join [newline] g)
                     = (total_len g + Z.of_nat (length g) - 1)%Z) gs.
Proof.
  intros Hh Hf.
  exists (groups m (hd [] (re_split block)) [hd [] (re_split block)]
                 (tl (re_split block))).
  split; [apply split_large_block_groups|]. split.
  - now rewrite groups_members by discriminate.
  - pose proof (groups_within_limit m _ [hd [] (re_split block)] _
                  ltac:(unfold total_len; simpl; lia) Hf) as Hw.
    pose proof (groups_nonempty m (hd [] (re_split block))
                  [hd [] (re_split block)] (tl (re_split block))
                  ltac:(discriminate)) as Hn.
    rewrite Forall_forall in *. intros g Hg. split; [now apply Hw|].
    apply len_join_newline. now apply Hn.
Qed.

Lemma sub_chunks_within_limit_witness :
  let block := lines ["class A(Base):"; "    x = 1"; "    y = 2"; "    z = 3"] in
  (len (hd [] (re_split block)) <= 24)%Z /\
  Forall (fun part => (len (hd [] (re_split block)) + len part <= 24)%Z)
         (tl (re_split block)) /\
  (exists gs,
    _split_large_block 24 block = map (join [newline]) gs /\
    concat (map (@tl str) gs) = tl (re_split block) /\
    Forall (fun g => (total_len g <= 24)%Z /\
                     len (join [newline] g)
                     = (total_len g + Z.of_nat (length g) - 1)%Z) gs) /\
  _split_large_block 24 block
  = [lines ["class A(Base):"; "x = 1"; "y = 2"];
     lines ["class A(Base):"; "z = 3"]] /\
  map len (_split_large_block 24 block) = [26; 20]%Z.
Proof.
  intros block.
  assert (H1 : (len (hd [] (re_split block)) <= 24)%Z) by (vm_compute; discriminate).
  assert (H2 : Forall (fun part => (len (hd [] (re_split block)) + len part <= 24)%Z)
                      (tl (re_split block))).
  { change (tl (re_split block)) with [lit "x = 1"; lit "y = 2"; lit "z = 3"].
    repeat constructor; vm_compute; discriminate. }
  split; [exact H1|]. split; [exact H2|]. split.
  - apply (sub_chunks_within_limit 24 block H1 H2).
  - split; vm_compute; reflexivity.
Defined.

